(** * feelsincubator: slider, UI utilities and page transition

    A shallow embedding of the three browser-side controllers of the
    repository (slider.js, utils.js, page-transition.js) and the properties
    their specification states about them.

    Conventions.
    - Every closure variable of a controller is a field of a state record;
      every function of the source is a state transformer of the same name.
    - What the browser hands to the code (layout read-outs, pointer
      coordinates, the result of a selector query) is an argument.
    - Card indices and integer pixel read-outs ([offsetWidth],
      [offsetHeight], [parseInt]) are [Z]. The pointer coordinates of the
      slider ([pageX]) are JavaScript numbers, that is binary64 floats
      ([float]), and what the slider computes from them is computed in
      binary64, as the code computes it. Coordinates that are only compared
      or reported (bounding rectangles, scroll positions) are the rationals
      [Q] they denote. *)

From Stdlib Require Import ZArith QArith Lia Lqa Bool.
From Stdlib Require Uint63.
From Stdlib Require Import Floats.
From stdpp Require Import base decidable option list gmap strings.

Open Scope Z_scope.

(* ===================================================================== *)
(** * slider.js                                                           *)
(* ===================================================================== *)

Module Slider.

(** Strict comparison of two pixel coordinates, as a boolean. *)
Definition Qltb (x y : Q) : bool := negb (Qle_bool y x).

(** The JavaScript number of an integer of the model. The integers the
    slider holds (an [offsetWidth], an offset in pixels) are far below
    [2^53] in size, where the conversion is exact. An offset of zero is the
    number 0 whatever its sign in JavaScript, which no string of a
    transform shows. *)
Definition numberOfInt (z : Z) : float :=
  if z <? 0 then (- of_uint63 (Uint63.of_Z (- z)))%float
  else of_uint63 (Uint63.of_Z z).

(** What [calculateDimensions] reads from the document:
    [cards[0].offsetWidth], [parseInt(getComputedStyle(track).gap)]
    ([None] is NaN) and [track.parentElement.offsetWidth]. *)
Record Layout := mkLayout {
  cardOffsetWidth : Z;
  gapParsed : option Z;
  containerWidth : Z
}.

(** The read-outs a browser can produce: widths and the gap are not
    negative. *)
Definition layout_ok (L : Layout) : Prop :=
  0 <= cardOffsetWidth L /\ 0 <= containerWidth L /\
  match gapParsed L with Some g => 0 <= g | None => True end.

(** The closure state of the controller, with the part of the track
    element it writes: the [is-dragging] class, the inline transform (in
    pixels, [None] while never written) and the capturing click listeners
    [onDragEnd] registers (one identifier per [preventClick] closure). *)
Record State := mkState {
  cardsLength : nat;
  cardWidth : Z;
  gap : Z;
  currentIndex : Z;
  maxIndex : Z;
  isDragging : bool;
  startX : float;
  currentX : float;
  translateX : Z;
  classIsDragging : bool;
  transform : option float;
  clickCapture : list nat;
  nextClosure : nat;
  resizeTimer : bool
}.

(** The variables as declared at the top of the closure, for a track with
    [n] cards. *)
Definition initial (n : nat) : State :=
  {| cardsLength := n; cardWidth := 0; gap := 24; currentIndex := 0;
     maxIndex := 0; isDragging := false; startX := 0%float;
     currentX := 0%float;
     translateX := 0; classIsDragging := false; transform := None;
     clickCapture := []; nextClosure := O; resizeTimer := false |}.

(** [updatePosition(animate)]. *)
Definition updatePosition (animate : bool) (s : State) : State :=
  let tx := - currentIndex s * (cardWidth s + gap s) in
  {| cardsLength := cardsLength s; cardWidth := cardWidth s; gap := gap s;
     currentIndex := currentIndex s; maxIndex := maxIndex s;
     isDragging := isDragging s; startX := startX s; currentX := currentX s;
     translateX := tx;
     classIsDragging := negb animate;
     transform := Some (numberOfInt tx);
     clickCapture := clickCapture s; nextClosure := nextClosure s;
     resizeTimer := resizeTimer s |}.

Definition set_currentIndex (i : Z) (s : State) : State :=
  {| cardsLength := cardsLength s; cardWidth := cardWidth s; gap := gap s;
     currentIndex := i; maxIndex := maxIndex s;
     isDragging := isDragging s; startX := startX s; currentX := currentX s;
     translateX := translateX s; classIsDragging := classIsDragging s;
     transform := transform s;
     clickCapture := clickCapture s; nextClosure := nextClosure s;
     resizeTimer := resizeTimer s |}.

(** [parseInt(style.gap) || 24]: NaN and 0 are falsy. *)
Definition gapOf (g : option Z) : Z :=
  match g with
  | Some 0 => 24
  | Some v => v
  | None => 24
  end.

(** [Math.floor(containerWidth / (cardWidth + gap))]. *)
Definition visibleCards (container cw g : Z) : Z := container / (cw + g).

Definition set_dimensions (cw g mx : Z) (s : State) : State :=
  {| cardsLength := cardsLength s; cardWidth := cw; gap := g;
     currentIndex := currentIndex s; maxIndex := mx;
     isDragging := isDragging s; startX := startX s; currentX := currentX s;
     translateX := translateX s; classIsDragging := classIsDragging s;
     transform := transform s;
     clickCapture := clickCapture s; nextClosure := nextClosure s;
     resizeTimer := resizeTimer s |}.

(** [calculateDimensions()]. *)
Definition calculateDimensions (L : Layout) (s : State) : State :=
  if Nat.eqb (cardsLength s) 0 then s
  else
    let cw := cardOffsetWidth L in
    let g := gapOf (gapParsed L) in
    let visible := visibleCards (containerWidth L) cw g in
    let mx := Z.max 0 (Z.of_nat (cardsLength s) - visible) in
    let s1 := set_dimensions cw g mx s in
    if mx <? currentIndex s1
    then updatePosition false (set_currentIndex mx s1)
    else s1.

(** [goToPrev()] and [goToNext()]. *)
Definition goToPrev (s : State) : State :=
  if 0 <? currentIndex s
  then updatePosition true (set_currentIndex (currentIndex s - 1) s)
  else s.

Definition goToNext (s : State) : State :=
  if currentIndex s <? maxIndex s
  then updatePosition true (set_currentIndex (currentIndex s + 1) s)
  else s.

(** A keydown as the document listener sees it: the key, the bounding
    rectangle (top, bottom) of the closest [.portfolio-section] of the track
    when there is one, and [window.innerHeight]. *)
Record KeyEvent := mkKey {
  key : string;
  sectionRect : option (Q * Q);
  innerHeight : Q
}.

Definition onKeydown (e : KeyEvent) (s : State) : State :=
  match sectionRect e with
  | None => s
  | Some (top, bottom) =>
      if Qltb top (innerHeight e) && Qltb 0 bottom then
        if String.eqb (key e) "ArrowLeft" then goToPrev s
        else if String.eqb (key e) "ArrowRight" then goToNext s
        else s
      else s
  end.

(** [onDragStart(e)], with [x] the [pageX] of the mouse or of the first
    touch. *)
Definition onDragStart (x : float) (s : State) : State :=
  {| cardsLength := cardsLength s; cardWidth := cardWidth s; gap := gap s;
     currentIndex := currentIndex s; maxIndex := maxIndex s;
     isDragging := true; startX := x; currentX := x;
     translateX := translateX s; classIsDragging := true;
     transform := transform s;
     clickCapture := clickCapture s; nextClosure := nextClosure s;
     resizeTimer := resizeTimer s |}.

(** [onDragMove(e)], with [x] the [pageX] of the move. The call of
    [e.preventDefault()] acts on the move event only and is left out. *)
Definition onDragMove (x : float) (s : State) : State :=
  if isDragging s then
    let diff := (x - startX s)%float in
    {| cardsLength := cardsLength s; cardWidth := cardWidth s; gap := gap s;
       currentIndex := currentIndex s; maxIndex := maxIndex s;
       isDragging := isDragging s; startX := startX s; currentX := x;
       translateX := translateX s; classIsDragging := classIsDragging s;
       transform := Some (numberOfInt (translateX s) + diff)%float;
       clickCapture := clickCapture s; nextClosure := nextClosure s;
       resizeTimer := resizeTimer s |}
  else s.

(** The first half of [onDragEnd]: leave the dragging state. *)
Definition endDragging (s : State) : State :=
  {| cardsLength := cardsLength s; cardWidth := cardWidth s; gap := gap s;
     currentIndex := currentIndex s; maxIndex := maxIndex s;
     isDragging := false; startX := startX s; currentX := currentX s;
     translateX := translateX s; classIsDragging := false;
     transform := transform s;
     clickCapture := clickCapture s; nextClosure := nextClosure s;
     resizeTimer := resizeTimer s |}.

(** [track.addEventListener('click', preventClick, true)] with a fresh
    closure. *)
Definition addPreventClick (s : State) : State :=
  {| cardsLength := cardsLength s; cardWidth := cardWidth s; gap := gap s;
     currentIndex := currentIndex s; maxIndex := maxIndex s;
     isDragging := isDragging s; startX := startX s; currentX := currentX s;
     translateX := translateX s; classIsDragging := classIsDragging s;
     transform := transform s;
     clickCapture := clickCapture s ++ [nextClosure s];
     nextClosure := S (nextClosure s);
     resizeTimer := resizeTimer s |}.

(** [diff] and [threshold] of [onDragEnd], in binary64 as the code
    computes them. *)
Definition dragDiff (s : State) : float := (currentX s - startX s)%float.
Definition threshold (s : State) : float :=
  (numberOfInt (cardWidth s) / 4)%float.

(** The index [onDragEnd] settles on. *)
Definition dragTarget (s : State) : Z :=
  if (threshold s <? dragDiff s)%float && (0 <? currentIndex s)
  then currentIndex s - 1
  else if (dragDiff s <? - threshold s)%float &&
          (currentIndex s <? maxIndex s)
  then currentIndex s + 1
  else currentIndex s.

(** [onDragEnd(e)]. *)
Definition onDragEnd (s : State) : State :=
  if isDragging s then
    let s1 := endDragging s in
    let s2 := updatePosition true (set_currentIndex (dragTarget s1) s1) in
    if (10 <? abs (dragDiff s))%float then addPreventClick s2 else s2
  else s.

(** A click event travelling through the capturing listeners of the
    track. *)
Record Click := mkClick {
  defaultPrevented : bool;
  propagationStopped : bool
}.

Definition removeListener (id : nat) (s : State) : State :=
  {| cardsLength := cardsLength s; cardWidth := cardWidth s; gap := gap s;
     currentIndex := currentIndex s; maxIndex := maxIndex s;
     isDragging := isDragging s; startX := startX s; currentX := currentX s;
     translateX := translateX s; classIsDragging := classIsDragging s;
     transform := transform s;
     clickCapture := filter (fun j => j <> id) (clickCapture s);
     nextClosure := nextClosure s;
     resizeTimer := resizeTimer s |}.

(** The closure [preventClick] number [id]. *)
Definition preventClick (id : nat) (sc : State * Click) : State * Click :=
  (removeListener id (fst sc),
   {| defaultPrevented := true; propagationStopped := true |}).

(** A click on the track (or inside it): the listeners registered when the
    dispatch starts run in order, one that has been removed meanwhile is
    skipped. *)
Definition trackClick (s : State) : State * Click :=
  fold_left
    (fun sc id =>
       if decide (id ∈ clickCapture (fst sc)) then preventClick id sc else sc)
    (clickCapture s)
    (s, {| defaultPrevented := false; propagationStopped := false |}).

(** The resize listener: [clearTimeout] then [setTimeout]; and the timer
    firing, which reads the layout of that moment. *)
Definition onResize (s : State) : State :=
  {| cardsLength := cardsLength s; cardWidth := cardWidth s; gap := gap s;
     currentIndex := currentIndex s; maxIndex := maxIndex s;
     isDragging := isDragging s; startX := startX s; currentX := currentX s;
     translateX := translateX s; classIsDragging := classIsDragging s;
     transform := transform s;
     clickCapture := clickCapture s; nextClosure := nextClosure s;
     resizeTimer := true |}.

Definition clearResizeTimer (s : State) : State :=
  {| cardsLength := cardsLength s; cardWidth := cardWidth s; gap := gap s;
     currentIndex := currentIndex s; maxIndex := maxIndex s;
     isDragging := isDragging s; startX := startX s; currentX := currentX s;
     translateX := translateX s; classIsDragging := classIsDragging s;
     transform := transform s;
     clickCapture := clickCapture s; nextClosure := nextClosure s;
     resizeTimer := false |}.

Definition onResizeTimer (L : Layout) (s : State) : State :=
  if resizeTimer s then calculateDimensions L (clearResizeTimer s) else s.

(** The events the controller listens to. *)
Inductive Event :=
| PrevButton
| NextButton
| Keydown (e : KeyEvent)
| DragStart (x : float)
| DragMove (x : float)
| DragEnd
| TrackClick
| Resize
| ResizeTimer (L : Layout)
| WindowLoad (L : Layout).

Definition step (s : State) (ev : Event) : State :=
  match ev with
  | PrevButton => goToPrev s
  | NextButton => goToNext s
  | Keydown e => onKeydown e s
  | DragStart x => onDragStart x s
  | DragMove x => onDragMove x s
  | DragEnd => onDragEnd s
  | TrackClick => fst (trackClick s)
  | Resize => onResize s
  | ResizeTimer L => onResizeTimer L s
  | WindowLoad L => calculateDimensions L s
  end.

Definition run (s : State) (evs : list Event) : State := fold_left step evs s.

(** The whole script: nothing at all without a track ([None]); otherwise
    the listeners are attached and [init] computes the dimensions. *)
Definition boot (track : option nat) (L : Layout) : option State :=
  match track with
  | None => None
  | Some n => Some (calculateDimensions L (initial n))
  end.

(** An event reaches the controller only when its listeners exist. *)
Definition dispatch (c : option State) (ev : Event) : option State :=
  match c with
  | None => None
  | Some s => Some (step s ev)
  end.

Definition dispatchAll (c : option State) (evs : list Event) : option State :=
  fold_left dispatch evs c.

End Slider.

(* ===================================================================== *)
(** * utils.js: modals and smooth scroll                                  *)
(* ===================================================================== *)

Module Utils.

(** An element of the page, as far as the handlers look at it. [parent] is
    the position of the parent element in the document. *)
Record Element := mkElement {
  tagName : string;
  elemId : option string;
  classList : gset string;
  attributes : gmap string string;
  parent : option nat;
  rectTop : Q;
  offsetHeight : Z
}.

(** The document: its elements in document order, and
    [document.body.style.overflow]. *)
Record Document := mkDocument {
  elements : list Element;
  bodyOverflow : string
}.

Definition hasClass (c : string) (e : Element) : bool :=
  bool_decide (c ∈ classList e).

Definition hasAttribute (a : string) (e : Element) : bool :=
  bool_decide (is_Some (attributes e !! a)).

Definition classAdd (c : string) (e : Element) : Element :=
  {| tagName := tagName e; elemId := elemId e;
     classList := {[c]} ∪ classList e;
     attributes := attributes e; parent := parent e;
     rectTop := rectTop e; offsetHeight := offsetHeight e |}.

Definition classRemove (c : string) (e : Element) : Element :=
  {| tagName := tagName e; elemId := elemId e;
     classList := classList e ∖ {[c]};
     attributes := attributes e; parent := parent e;
     rectTop := rectTop e; offsetHeight := offsetHeight e |}.

(** [node.closest(selector)] for a selector that tests one element: the
    node itself or its nearest ancestor that matches. No chain of parents is
    longer than the document, which bounds the walk. *)
Fixpoint closestFrom (fuel : nat) (sel : Element -> bool)
    (els : list Element) (i : nat) : option nat :=
  match fuel with
  | O => None
  | S fuel' =>
      match els !! i with
      | None => None
      | Some e =>
          if sel e then Some i
          else match parent e with
               | None => None
               | Some p => closestFrom fuel' sel els p
               end
      end
  end.

Definition closest (sel : Element -> bool) (d : Document) (i : nat)
    : option nat :=
  closestFrom (length (elements d)) sel (elements d) i.

(** [document.querySelector(selector)] for such a selector: the first
    match in document order. *)
Definition querySelector (sel : Element -> bool) (d : Document)
    : option nat :=
  fst <$> list_find (fun e => sel e = true) (elements d).

(** [document.getElementById(id)]; no element has the empty identifier. *)
Definition getElementById (id : string) (d : Document) : option nat :=
  if decide (id = "") then None
  else fst <$> list_find (fun e => elemId e = Some id) (elements d).

(** [.modal.is-active] and [.overlay.is-active]. *)
Definition isActiveModal (e : Element) : bool :=
  hasClass "modal" e && hasClass "is-active" e.

Definition isActiveOverlay (e : Element) : bool :=
  hasClass "overlay" e && hasClass "is-active" e.

Definition updateElement (f : Element -> Element) (i : nat) (d : Document)
    : Document :=
  {| elements := alter f i (elements d); bodyOverflow := bodyOverflow d |}.

Definition setBodyOverflow (v : string) (d : Document) : Document :=
  {| elements := elements d; bodyOverflow := v |}.

(** [closeAllModals()]: both queries are made first, then every node of
    the first one loses [is-active], then the overlay found. *)
Definition closeAllModals (d : Document) : Document :=
  let overlay := querySelector isActiveOverlay d in
  let d1 :=
    {| elements :=
         (fun e => if isActiveModal e then classRemove "is-active" e else e)
           <$> elements d;
       bodyOverflow := bodyOverflow d |} in
  let d2 :=
    match overlay with
    | Some o => updateElement (classRemove "is-active") o d1
    | None => d1
    end in
  setBodyOverflow "" d2.

(** The delegated click listener of [initModals], for a click whose
    [e.target] is the element at [target]. *)
Definition modalClick (target : nat) (d : Document) : Document :=
  match closest (hasAttribute "data-modal-open") d target with
  | Some t =>
      let modalId :=
        default "" (elements d !! t ≫= fun e => attributes e !! "data-modal-open") in
      let modal := getElementById modalId d in
      let overlay := querySelector (hasClass "overlay") d in
      match modal with
      | Some m =>
          let d1 := updateElement (classAdd "is-active") m d in
          let d2 :=
            match overlay with
            | Some o => updateElement (classAdd "is-active") o d1
            | None => d1
            end in
          setBodyOverflow "hidden" d2
      | None => d
      end
  | None =>
      let closer := closest (hasAttribute "data-modal-close") d target in
      let onOverlay :=
        default false (hasClass "overlay" <$> elements d !! target) in
      if bool_decide (is_Some closer) || onOverlay
      then closeAllModals d
      else d
  end.

(** The keydown listener of [initModals]. *)
Definition modalKeydown (k : string) (d : Document) : Document :=
  if String.eqb k "Escape" then closeAllModals d else d.

(** What a handler does to the event and the window, in order. *)
Inductive Effect :=
| PreventDefault
| ScrollToSmooth (top : Q)
| PushState (url : string).

(** How a call of [document.querySelector] with a selector computed at run
    time ends: the string is not a valid selector (an exception), or the
    first matching element if there is one. *)
Inductive Query :=
| SyntaxError
| Matched (e : option Element).

(** [a[href^="#"]]. *)
Definition isHashLink (e : Element) : bool :=
  String.eqb (tagName e) "a" &&
  match attributes e !! "href" with
  | Some h => String.prefix "#" h
  | None => false
  end.

(** [document.querySelector('.site-header')?.offsetHeight || 0]. *)
Definition headerHeight (d : Document) : Z :=
  match querySelector (hasClass "site-header") d ≫= fun i => elements d !! i with
  | Some h => offsetHeight h
  | None => 0
  end.

Section SmoothScroll.

(** The selector engine of the browser on the current document, and
    [window.scrollY]. *)
Variable select : string -> Query.
Variable scrollY : Q.

(** The delegated click listener of [initSmoothScroll]: the effects it
    has, in order; it ends by returning or by the exception of the
    query, with the same effects either way. *)
Definition smoothScrollClick (target : nat) (d : Document) : list Effect :=
  match closest isHashLink d target with
  | None => []
  | Some l =>
      let targetId :=
        default "" (elements d !! l ≫= fun e => attributes e !! "href") in
      if String.eqb targetId "#" then []
      else
        match select targetId with
        | SyntaxError => []
        | Matched None => []
        | Matched (Some t) =>
            let targetPosition :=
              (rectTop t + scrollY - inject_Z (headerHeight d))%Q in
            [PreventDefault; ScrollToSmooth targetPosition;
             PushState targetId]
        end
  end.

End SmoothScroll.

(** ** The mobile menu *)

Definition setAttribute (a v : string) (e : Element) : Element :=
  {| tagName := tagName e; elemId := elemId e; classList := classList e;
     attributes := <[a:=v]> (attributes e); parent := parent e;
     rectTop := rectTop e; offsetHeight := offsetHeight e |}.

(** [classList.toggle(c)]. *)
Definition classToggle (c : string) (e : Element) : Element :=
  if hasClass c e then classRemove c e else classAdd c e.

(** The two elements [initMobileNav] looks up, by position. *)
Record MobileNav := mkMobileNav {
  navToggle : nat;
  navMenu : nat
}.

(** [initMobileNav()]: nothing is registered ([None]) unless both the
    [.nav-toggle] and the [.mobile-menu] exist. *)
Definition initMobileNav (d : Document) : option MobileNav :=
  match querySelector (hasClass "nav-toggle") d,
        querySelector (hasClass "mobile-menu") d with
  | Some t, Some m => Some {| navToggle := t; navMenu := m |}
  | _, _ => None
  end.

(** [menu.classList.contains('is-active')]. *)
Definition menuIsActive (nav : MobileNav) (d : Document) : bool :=
  default false (hasClass "is-active" <$> elements d !! navMenu nav).

(** [String(b)] of a boolean, as [setAttribute] stores it. *)
Definition boolString (b : bool) : string :=
  if b then "true" else "false".

(** The click listener of the toggle. *)
Definition navToggleClick (nav : MobileNav) (d : Document) : Document :=
  let isOpen := menuIsActive nav d in
  let d1 := updateElement (classToggle "is-active") (navMenu nav) d in
  let d2 :=
    updateElement (setAttribute "aria-expanded" (boolString (negb isOpen)))
      (navToggle nav) d1 in
  setBodyOverflow (if isOpen then "" else "hidden") d2.

(** The three statements the two closing listeners share. *)
Definition navClose (nav : MobileNav) (d : Document) : Document :=
  let d1 := updateElement (classRemove "is-active") (navMenu nav) d in
  let d2 :=
    updateElement (setAttribute "aria-expanded" "false") (navToggle nav) d1 in
  setBodyOverflow "" d2.

(** The keydown listener of the mobile menu. *)
Definition navKeydown (nav : MobileNav) (k : string) (d : Document)
    : Document :=
  if String.eqb k "Escape" && menuIsActive nav d then navClose nav d else d.

(** The click listener of the menu, for a click whose [e.target] is the
    element at [target]: [e.target.matches('a')]. *)
Definition navMenuClick (nav : MobileNav) (target : nat) (d : Document)
    : Document :=
  if default false
       ((fun e => String.eqb (tagName e) "a") <$> elements d !! target)
  then navClose nav d
  else d.

(** A keydown reaches the two keydown listeners of the document in the
    order [init] registers them: the one of the menu, when there is one,
    then the one of the modals. *)
Definition documentKeydown (nav : option MobileNav) (k : string)
    (d : Document) : Document :=
  modalKeydown k
    match nav with
    | Some n => navKeydown n k d
    | None => d
    end.

(** The elements a click at [target] passes through while it bubbles:
    the target, its parent, and so on up (no chain of parents is longer than
    the document). *)
Fixpoint bubblePathFrom (fuel : nat) (els : list Element) (i : nat)
    : list nat :=
  match fuel with
  | O => []
  | S fuel' =>
      match els !! i with
      | None => []
      | Some e =>
          i :: match parent e with
               | None => []
               | Some p => bubblePathFrom fuel' els p
               end
      end
  end.

Definition bubblePath (d : Document) (target : nat) : list nat :=
  bubblePathFrom (length (elements d)) (elements d) target.

(** The click listeners [initMobileNav] attaches to the element at [i],
    in the order it registers them: the one of the toggle, the one of the
    menu. *)
Definition navListenersAt (nav : MobileNav) (target i : nat) (d : Document)
    : Document :=
  let d1 := if decide (i = navToggle nav) then navToggleClick nav d else d in
  if decide (i = navMenu nav) then navMenuClick nav target d1 else d1.

(** A click at [target] as the listeners of this file see it, none of
    which stops the propagation: the listeners of the toggle and of the menu
    on the way up, then, on the document, the click listener of the modals
    (the smooth-scroll listener, which runs after it, writes nothing to the
    document). *)
Definition pageClick (nav : option MobileNav) (target : nat) (d : Document)
    : Document :=
  modalClick target
    match nav with
    | Some n =>
        fold_left (fun d' i => navListenersAt n target i d')
          (bubblePath d target) d
    | None => d
    end.

(** The events the listeners of this file change the document on. *)
Inductive PageEvent :=
| Click (target : nat)
| Keydown (k : string).

Definition pageStep (nav : option MobileNav) (d : Document) (ev : PageEvent)
    : Document :=
  match ev with
  | Click target => pageClick nav target d
  | Keydown k => documentKeydown nav k d
  end.

End Utils.



(* ===================================================================== *)
(** * page-transition.js                                                  *)
(* ===================================================================== *)

Module Transition.

(** One interference line: [style.top] in percent, [style.height] in
    pixels, [style.opacity]. *)
Record Line := mkLine {
  lineTop : Q;
  lineHeight : Q;
  lineOpacity : Q
}.

(** The callbacks handed to [setTimeout]. *)
Inductive Callback :=
| ShowOverlay
| StartExit
| CleanUp
| Assign (url : string).

(** [window.location], as far as the click filter reads it. *)
Record Location := mkLocation {
  href : string;
  hostname : string;
  pathname : string
}.

(** The two closure variables ([transition] is the class list and the
    appended line containers of [#page-transition], when that element
    exists), the class list of the body, the page the window shows or is
    told to load, and the timers that are set, each with its delay in
    milliseconds. *)
Record State := mkState {
  prefersReducedMotion : bool;
  transition : option (gset string * list (list Line));
  bodyClasses : gset string;
  location : Location;
  assigned : option string;
  timers : list (Z * Callback)
}.

Definition overlayClasses (s : State) : gset string :=
  match transition s with
  | Some (cl, _) => cl
  | None => ∅
  end.

Definition withBody (f : gset string -> gset string) (s : State) : State :=
  {| prefersReducedMotion := prefersReducedMotion s;
     transition := transition s;
     bodyClasses := f (bodyClasses s);
     location := location s; assigned := assigned s; timers := timers s |}.

(** [if (transition) transition.classList. ...]. *)
Definition withOverlay (f : gset string -> gset string) (s : State) : State :=
  {| prefersReducedMotion := prefersReducedMotion s;
     transition :=
       match transition s with
       | Some (cl, ch) => Some (f cl, ch)
       | None => None
       end;
     bodyClasses := bodyClasses s;
     location := location s; assigned := assigned s; timers := timers s |}.

Definition setTimeout (cb : Callback) (delay : Z) (s : State) : State :=
  {| prefersReducedMotion := prefersReducedMotion s;
     transition := transition s; bodyClasses := bodyClasses s;
     location := location s; assigned := assigned s;
     timers := timers s ++ [(delay, cb)] |}.

(** [window.location.href = url]. *)
Definition assignLocation (url : string) (s : State) : State :=
  {| prefersReducedMotion := prefersReducedMotion s;
     transition := transition s; bodyClasses := bodyClasses s;
     location := location s; assigned := Some url; timers := timers s |}.

(** [createGlitchLines()], with [random k] the value of the [k]-th call of
    [Math.random]. *)
Definition glitchLine (random : nat -> Q) (i : nat) : Line :=
  {| lineTop := (random (3 * i)%nat * 100)%Q;
     lineHeight := (random (3 * i + 1)%nat * 3 + 1)%Q;
     lineOpacity := (random (3 * i + 2)%nat * (1 # 2))%Q |}.

Definition createGlitchLines (random : nat -> Q) (s : State) : State :=
  {| prefersReducedMotion := prefersReducedMotion s;
     transition :=
       match transition s with
       | Some (cl, ch) => Some (cl, ch ++ [glitchLine random <$> seq 0 20])
       | None => None
       end;
     bodyClasses := bodyClasses s;
     location := location s; assigned := assigned s; timers := timers s |}.

(** [init()]. *)
Definition init (random : nat -> Q) (s : State) : State :=
  let s1 := createGlitchLines random s in
  if negb (prefersReducedMotion s1) then
    let s2 := withBody (fun cl => {["is-glitching"]} ∪ cl) s1 in
    let s3 := setTimeout ShowOverlay 50 s2 in
    setTimeout StartExit 500 s3
  else s1.

(** The body of each timer callback. *)
Definition runCallback (cb : Callback) (s : State) : State :=
  match cb with
  | ShowOverlay => withOverlay (fun cl => {["glitch-active"]} ∪ cl) s
  | StartExit =>
      let s1 :=
        withOverlay (fun cl => {["glitch-exit"]} ∪ (cl ∖ {["glitch-active"]})) s in
      setTimeout CleanUp 400 s1
  | CleanUp =>
      withOverlay (fun cl => cl ∖ {["glitch-exit"]})
        (withBody (fun cl => cl ∖ {["is-glitching"]}) s)
  | Assign url => assignLocation url s
  end.

(** The [i]-th timer that is set fires. *)
Definition fireTimer (i : nat) (s : State) : State :=
  match timers s !! i with
  | None => s
  | Some (_, cb) =>
      runCallback cb
        {| prefersReducedMotion := prefersReducedMotion s;
           transition := transition s; bodyClasses := bodyClasses s;
           location := location s; assigned := assigned s;
           timers := delete i (timers s) |}
  end.

(** [navigateTo(url)]. *)
Definition navigateTo (url : string) (s : State) : State :=
  if prefersReducedMotion s then assignLocation url s
  else
    let s1 := withBody (fun cl => {["is-leaving"]} ∪ cl) s in
    let s2 := withOverlay (fun cl => {["glitch-active"]} ∪ cl) s1 in
    setTimeout (Assign url) 450 s2.

(** The closest [a] of a click target, as far as the click filter reads
    it, and the click with its modifier keys. *)
Record Link := mkLink {
  linkHref : string;
  linkHostname : string;
  linkPathname : string;
  linkHash : string;
  hasDownload : bool;
  targetAttr : option string
}.

Record Click := mkClick {
  closestLink : option Link;
  ctrlKey : bool;
  metaKey : bool;
  shiftKey : bool;
  altKey : bool
}.

(** The click listener of [handleNavigation]: the new state, and whether
    [preventDefault] was called. *)
Definition onClick (e : Click) (s : State) : State * bool :=
  match closestLink e with
  | None => (s, false)
  | Some link =>
      if negb (String.eqb (linkHostname link) (hostname (location s)))
      then (s, false)
      else if hasDownload link then (s, false)
      else if bool_decide (targetAttr link = Some "_blank") then (s, false)
      else if negb (String.eqb (linkHash link) "") &&
              String.eqb (linkPathname link) (pathname (location s))
      then (s, false)
      else if ctrlKey e || metaKey e || shiftKey e || altKey e
      then (s, false)
      else (navigateTo (linkHref link) s, true)
  end.

(** The [popstate] listener of [handlePopState]. *)
Definition onPopState (s : State) : State :=
  withOverlay (fun cl => {["glitch-active"]} ∪ cl)
    (withBody (fun cl => {["is-glitching"]} ∪ cl) s).

(** The animation-state markers. *)
Definition markers : gset string :=
  {["is-glitching"; "is-leaving"; "glitch-active"; "glitch-exit"]}.

(** The operations of the controller. *)
Inductive Op :=
| Init (random : nat -> Q)
| LinkClick (e : Click)
| PopState
| Timer (i : nat).

Definition step (s : State) (o : Op) : State :=
  match o with
  | Init random => init random s
  | LinkClick e => fst (onClick e s)
  | PopState => onPopState s
  | Timer i => fireTimer i s
  end.

End Transition.

(* ===================================================================== *)
(** * Properties of the slider                                            *)
(* ===================================================================== *)

Module SliderProps.
Import Slider.

Lemma Qltb_lt x y : Qltb x y = true <-> (x < y)%Q.
Proof.
  unfold Qltb. rewrite negb_true_iff. split.
  - intros H. apply Qnot_le_lt. intros Hle.
    apply Qle_bool_iff in Hle. congruence.
  - intros H. destruct (Qle_bool y x) eqn:E; [|reflexivity].
    apply Qle_bool_iff in E. exfalso. revert H. apply Qle_not_lt, E.
Qed.

Lemma Qltb_ge x y : Qltb x y = false <-> (y <= x)%Q.
Proof.
  unfold Qltb. rewrite negb_false_iff. apply Qle_bool_iff.
Qed.

(** The index is within its bounds. *)
Definition inRange (s : State) : Prop :=
  0 <= currentIndex s <= maxIndex s.

(** The events of discrete navigation: a button or a key. *)
Definition isNavigation (ev : Event) : Prop :=
  match ev with
  | PrevButton | NextButton | Keydown _ => True
  | _ => False
  end.

Lemma goToNext_lt s :
  currentIndex s < maxIndex s ->
  currentIndex (goToNext s) = currentIndex s + 1 /\
  maxIndex (goToNext s) = maxIndex s.
Proof.
  intros H. unfold goToNext.
  destruct (Z.ltb_spec (currentIndex s) (maxIndex s)); [|lia].
  split; reflexivity.
Qed.

Lemma goToNext_ge s : maxIndex s <= currentIndex s -> goToNext s = s.
Proof.
  intros H. unfold goToNext.
  destruct (Z.ltb_spec (currentIndex s) (maxIndex s)); [lia|reflexivity].
Qed.

Lemma goToPrev_gt s :
  0 < currentIndex s ->
  currentIndex (goToPrev s) = currentIndex s - 1 /\
  maxIndex (goToPrev s) = maxIndex s.
Proof.
  intros H. unfold goToPrev.
  destruct (Z.ltb_spec 0 (currentIndex s)); [|lia].
  split; reflexivity.
Qed.

Lemma goToPrev_le s : currentIndex s <= 0 -> goToPrev s = s.
Proof.
  intros H. unfold goToPrev.
  destruct (Z.ltb_spec 0 (currentIndex s)); [lia|reflexivity].
Qed.

(** A keydown does nothing, or what one of the two buttons does. *)
Lemma onKeydown_cases e s :
  onKeydown e s = s \/ onKeydown e s = goToPrev s \/ onKeydown e s = goToNext s.
Proof.
  unfold onKeydown.
  destruct (sectionRect e) as [[top bottom]|]; [|now left].
  destruct (Qltb top (innerHeight e) && Qltb 0 bottom); [|now left].
  destruct (String.eqb (key e) "ArrowLeft"); [now right; left|].
  destruct (String.eqb (key e) "ArrowRight"); [now right; right|now left].
Qed.

Lemma goToNext_inRange s :
  inRange s -> inRange (goToNext s) /\ maxIndex (goToNext s) = maxIndex s.
Proof.
  unfold inRange. intros H.
  destruct (Z.lt_ge_cases (currentIndex s) (maxIndex s)) as [Hlt|Hge].
  - destruct (goToNext_lt s Hlt) as [-> ->]. lia.
  - rewrite (goToNext_ge s Hge). lia.
Qed.

Lemma goToPrev_inRange s :
  inRange s -> inRange (goToPrev s) /\ maxIndex (goToPrev s) = maxIndex s.
Proof.
  unfold inRange. intros H.
  destruct (Z.lt_ge_cases 0 (currentIndex s)) as [Hlt|Hge].
  - destruct (goToPrev_gt s Hlt) as [-> ->]. lia.
  - rewrite (goToPrev_le s Hge). lia.
Qed.

Lemma navigation_step_inRange s ev :
  isNavigation ev -> inRange s ->
  inRange (step s ev) /\ maxIndex (step s ev) = maxIndex s.
Proof.
  intros Hnav Hin. destruct ev; simpl in Hnav; try contradiction; simpl.
  - now apply goToPrev_inRange.
  - now apply goToNext_inRange.
  - destruct (onKeydown_cases e s) as [-> | [-> | ->]].
    + now split.
    + now apply goToPrev_inRange.
    + now apply goToNext_inRange.
Qed.

(** C1. Starting with [0 <= currentIndex <= maxIndex], after any sequence
    of prev/next button clicks and key presses the index is still within
    [0, maxIndex] (and [maxIndex] is the same, so this holds at every point
    of the sequence); [goToNext] adds exactly one when the index is below
    [maxIndex] and changes nothing at [maxIndex]; [goToPrev] subtracts
    exactly one when the index is above 0 and changes nothing at 0; a key
    press does what one of the two does, or nothing. *)
Theorem navigation_keeps_index_in_range (s : State) (evs : list Event) :
  inRange s ->
  Forall isNavigation evs ->
  (inRange (run s evs) /\ maxIndex (run s evs) = maxIndex s) /\
  (currentIndex s < maxIndex s ->
     currentIndex (goToNext s) = currentIndex s + 1) /\
  (currentIndex s = maxIndex s -> goToNext s = s) /\
  (0 < currentIndex s -> currentIndex (goToPrev s) = currentIndex s - 1) /\
  (currentIndex s = 0 -> goToPrev s = s) /\
  (forall e, onKeydown e s = s \/ onKeydown e s = goToPrev s \/
             onKeydown e s = goToNext s).
Proof.
  intros Hin Hnav. split; [|repeat split].
  - revert s Hin. induction Hnav as [|ev evs Hev _ IH]; intros s Hin.
    + now split.
    + simpl. destruct (navigation_step_inRange s ev Hev Hin) as [Hin' Hmax].
      destruct (IH _ Hin') as [H1 H2]. split; [exact H1|congruence].
  - intros H. now apply goToNext_lt.
  - intros H. apply goToNext_ge. lia.
  - intros H. now apply goToPrev_gt.
  - intros H. apply goToPrev_le. lia.
  - intros e. apply onKeydown_cases.
Qed.

Definition demoLayout : Layout :=
  {| cardOffsetWidth := 300; gapParsed := Some 24; containerWidth := 1000 |}.

(** Six cards of 300px with a 24px gap in a 1000px container. *)
Definition demoState : State := calculateDimensions demoLayout (initial 6).

Lemma navigation_keeps_index_in_range_witness :
  let evs := [NextButton; NextButton; PrevButton; NextButton; NextButton;
              NextButton] in
  inRange (run demoState evs) /\ maxIndex (run demoState evs) = 3.
Proof.
  intros evs.
  refine (proj1 (navigation_keeps_index_in_range demoState evs _ _)).
  - unfold inRange. simpl. lia.
  - repeat constructor.
Defined.

(** ** Binary64 order *)

(** Not below zero: a zero, a positive number or infinity, or not a
    number. *)
Definition notNegative (f : spec_float) : Prop :=
  match f with
  | S754_infinity sign | S754_finite sign _ _ => sign = false
  | _ => True
  end.

(** Rounding keeps the sign it is given. *)
Lemma binary_round_aux_sign sign m e l :
  match binary_round_aux prec emax sign m e l with
  | S754_zero sign' | S754_infinity sign' | S754_finite sign' _ _ =>
      sign' = sign
  | S754_nan => True
  end.
Proof.
  unfold binary_round_aux.
  destruct (shr_fexp prec emax m e l) as [mrs' e'].
  destruct (shr_fexp prec emax _ e' loc_Exact) as [mrs'' e''].
  destruct (shr_m mrs''); [reflexivity| |exact I].
  destruct (Z.leb e'' _); reflexivity.
Qed.

Lemma numberOfInt_notNegative z :
  0 <= z -> notNegative (Prim2SF (numberOfInt z)).
Proof.
  intros Hz. unfold numberOfInt.
  destruct (Z.ltb_spec z 0); [lia|].
  rewrite FloatAxioms.of_uint63_spec.
  pose proof (Uint63.to_Z_bounded (Uint63.of_Z z)) as [Hn _].
  destruct (Uint63.to_Z (Uint63.of_Z z)) as [|p|p]; [exact I| |lia].
  unfold binary_normalize, binary_round.
  destruct (shl_align _ _ _) as [mz ez].
  pose proof (binary_round_aux_sign false (Zpos mz) ez loc_Exact) as H'.
  destruct (binary_round_aux _ _ _ _ _ _); simpl; auto.
Qed.

(** A quarter of a width that is not negative is not negative. *)
Lemma quarter_notNegative z :
  0 <= z -> notNegative (Prim2SF (numberOfInt z / 4)%float).
Proof.
  intros Hz. pose proof (numberOfInt_notNegative z Hz) as H.
  rewrite FloatAxioms.div_spec.
  change (Prim2SF 4%float) with (S754_finite false 4503599627370496 (-50)).
  destruct (Prim2SF (numberOfInt z)) as [sign|sign| |sign m e];
    simpl in *; auto.
  - subst sign. reflexivity.
  - subst sign. unfold SF64div, SFdiv.
    destruct (SFdiv_core_binary _ _ _ _ _ _) as [[mz ez] lz].
    pose proof (binary_round_aux_sign (xorb false false) mz ez lz) as H'.
    destruct (binary_round_aux _ _ _ _ _ _); simpl; auto.
Qed.

(** A number above a threshold that is not negative is not below the
    opposite of that threshold. *)
Lemma above_not_below (t d : float) :
  notNegative (Prim2SF t) ->
  (t <? d)%float = true -> (d <? - t)%float = true -> False.
Proof.
  rewrite !FloatAxioms.ltb_spec, FloatAxioms.opp_spec. unfold SFltb.
  destruct (Prim2SF t) as [[]|[]| |[] mt et];
    destruct (Prim2SF d) as [[]|[]| |[] md ed]; simpl;
    try discriminate; try (intros [=]; fail); intros _; try discriminate.
Qed.

(** The difference of a number and itself is zero, or not a number. *)
Lemma self_difference (x : float) :
  Prim2SF (x - x)%float = S754_nan \/ Prim2SF (x - x)%float = S754_zero false.
Proof.
  rewrite FloatAxioms.sub_spec. unfold SF64sub, SFsub.
  destruct (Prim2SF x) as [[]|[]| |sign m e]; auto.
  right. rewrite Z.sub_diag. reflexivity.
Qed.

(** Such a difference is above no threshold that is not negative, not
    below its opposite, and not above 10 in size. *)
Lemma not_above_zero (t d : float) :
  notNegative (Prim2SF t) ->
  Prim2SF d = S754_nan \/ Prim2SF d = S754_zero false ->
  (t <? d)%float = false /\ (d <? - t)%float = false /\
  (10 <? abs d)%float = false.
Proof.
  intros Ht Hd.
  rewrite !FloatAxioms.ltb_spec, FloatAxioms.opp_spec, FloatAxioms.abs_spec.
  unfold SFltb.
  change (Prim2SF 10%float) with (S754_finite false 5629499534213120 (-49)).
  destruct Hd as [-> | ->];
    destruct (Prim2SF t) as [[]|[]| |[] mt et]; simpl in *;
    try discriminate; repeat split.
Qed.

(** At most is not above. *)
Lemma leb_not_ltb (a b : float) :
  (a <=? b)%float = true -> (b <? a)%float = false.
Proof.
  rewrite FloatAxioms.leb_spec, FloatAxioms.ltb_spec. unfold SFleb, SFltb.
  destruct (Prim2SF a) as [[]|[]| |[] ma ea];
    destruct (Prim2SF b) as [[]|[]| |[] mb eb]; simpl;
    try discriminate; try reflexivity;
    change (Pos.compare_cont Eq ?p ?q) with (Pos.compare p q);
    rewrite (Z.compare_antisym ea eb), (Pos.compare_antisym ma mb);
    destruct (ea ?= eb); simpl; try discriminate; try reflexivity;
    destruct (ma ?= mb)%positive; simpl; try discriminate; reflexivity.
Qed.

(** ** The end of a drag *)

Lemma threshold_notNegative s :
  0 <= cardWidth s -> notNegative (Prim2SF (threshold s)).
Proof. intros H. now apply quarter_notNegative. Qed.

Lemma onDragEnd_index s :
  isDragging s = true -> currentIndex (onDragEnd s) = dragTarget s.
Proof.
  intros H. unfold onDragEnd. rewrite H.
  destruct (10 <? abs (dragDiff s))%float; reflexivity.
Qed.

Lemma onDragEnd_position s :
  isDragging s = true ->
  let s' := onDragEnd s in
  translateX s' = - currentIndex s' * (cardWidth s' + gap s') /\
  transform s' = Some (numberOfInt (translateX s')) /\
  classIsDragging s' = false /\ isDragging s' = false.
Proof.
  intros H. unfold onDragEnd. rewrite H.
  destruct (10 <? abs (dragDiff s))%float; simpl; repeat split.
Qed.

(** C2. When a drag ends ([onDragEnd] while [isDragging]), with [diff]
    the number [currentX - startX] and the threshold the number
    [cardWidth / 4], both as JavaScript computes them: if
    [diff > cardWidth/4] and the index is above 0 the index goes down by
    exactly one; if [diff < -cardWidth/4] and the index is below [maxIndex]
    it goes up by exactly one; in every other case it is unchanged; and in
    all cases the position is applied again with animation: [translateX]
    and the transform are [-currentIndex * (cardWidth + gap)], the
    [is-dragging] class is off and the drag is over. *)
Theorem drag_end_moves_at_most_one (s : State) :
  isDragging s = true ->
  0 <= cardWidth s ->
  let s' := onDragEnd s in
  let diff := (currentX s - startX s)%float in
  let quarter := (numberOfInt (cardWidth s) / 4)%float in
  ((quarter <? diff)%float = true -> 0 < currentIndex s ->
     currentIndex s' = currentIndex s - 1) /\
  ((diff <? - quarter)%float = true -> currentIndex s < maxIndex s ->
     currentIndex s' = currentIndex s + 1) /\
  (~ ((quarter <? diff)%float = true /\ 0 < currentIndex s) ->
   ~ ((diff <? - quarter)%float = true /\ currentIndex s < maxIndex s) ->
     currentIndex s' = currentIndex s) /\
  translateX s' = - currentIndex s' * (cardWidth s' + gap s') /\
  transform s' = Some (numberOfInt (translateX s')) /\
  classIsDragging s' = false /\ isDragging s' = false.
Proof.
  intros Hdrag Hcw s' diff quarter. subst s'.
  pose proof (quarter_notNegative (cardWidth s) Hcw) as Hq. fold quarter in Hq.
  pose proof (onDragEnd_index s Hdrag) as Hidx.
  split; [|split; [|split]]; [ | | |exact (onDragEnd_position s Hdrag)];
    rewrite Hidx; unfold dragTarget, threshold, dragDiff;
    fold diff; fold quarter.
  - intros Hd Hi. apply Z.ltb_lt in Hi. now rewrite Hd, Hi.
  - intros Hd Hi.
    assert ((quarter <? diff)%float = false) as ->.
    { destruct (quarter <? diff)%float eqn:E; [|reflexivity].
      exfalso. exact (above_not_below quarter diff Hq E Hd). }
    apply Z.ltb_lt in Hi. now rewrite Hd, Hi.
  - intros H1 H2.
    destruct (quarter <? diff)%float eqn:E1;
      destruct (0 <? currentIndex s) eqn:E2; simpl.
    + exfalso. apply H1. split; [reflexivity|now apply Z.ltb_lt].
    + destruct (diff <? - quarter)%float eqn:E3;
        destruct (currentIndex s <? maxIndex s) eqn:E4; simpl; try reflexivity.
      exfalso. apply H2. split; [reflexivity|now apply Z.ltb_lt].
    + destruct (diff <? - quarter)%float eqn:E3;
        destruct (currentIndex s <? maxIndex s) eqn:E4; simpl; try reflexivity.
      exfalso. apply H2. split; [reflexivity|now apply Z.ltb_lt].
    + destruct (diff <? - quarter)%float eqn:E3;
        destruct (currentIndex s <? maxIndex s) eqn:E4; simpl; try reflexivity.
      exfalso. apply H2. split; [reflexivity|now apply Z.ltb_lt].
Qed.

(** A drag of 100px to the left from the second card. *)
Definition demoDrag : State :=
  onDragMove 400 (onDragStart 500 (goToNext demoState)).

Lemma drag_end_moves_at_most_one_witness :
  currentIndex demoDrag = 1 /\
  currentIndex (onDragEnd demoDrag) = 2 /\
  translateX (onDragEnd demoDrag) = -648.
Proof.
  assert (0 <= cardWidth demoDrag) as Hcw by (vm_compute; discriminate).
  destruct (drag_end_moves_at_most_one demoDrag eq_refl Hcw)
    as (_ & Hnext & _ & Htx & _).
  split; [reflexivity|]. split.
  - apply Hnext; vm_compute; reflexivity.
  - rewrite Htx, Hnext; vm_compute; reflexivity.
Defined.

(** The pointer goes from 0.25 to 75.5 over cards of 300 pixels: the
    difference is 75.25, above the quarter of 75, and the slider goes back
    one card; from 0.2 to 75.2 the difference JavaScript computes is exactly
    75, not above the quarter, and the slider stays. *)
Example drag_just_above_and_at_the_quarter :
  currentIndex
    (onDragEnd (onDragMove 75.5 (onDragStart 0.25 (goToNext demoState)))) = 0 /\
  (0x1.2cccccccccccdp+6 - 0x1.999999999999ap-3)%float = 75%float /\
  currentIndex
    (onDragEnd (onDragMove 0x1.2cccccccccccdp+6
                  (onDragStart 0x1.999999999999ap-3 (goToNext demoState)))) = 1.
Proof. vm_compute. repeat split. Qed.

(** ** Dimension recalculation *)

Lemma gapOf_pos g :
  match g with Some v => 0 <= v | None => True end -> 0 < gapOf g.
Proof.
  destruct g as [[|p|p]|]; simpl; lia.
Qed.

(** On the read-outs of a browser the integer quotient is the floor of the
    exact quotient. *)
Lemma visibleCards_floor container cw g :
  0 < cw + g ->
  let v := visibleCards container cw g in
  v * (cw + g) <= container < (v + 1) * (cw + g).
Proof.
  intros Hpos v. subst v. unfold visibleCards.
  pose proof (Z.mul_div_le container (cw + g) Hpos).
  pose proof (Z.mul_succ_div_gt container (cw + g) Hpos).
  lia.
Qed.

Lemma calculateDimensions_dims L s :
  cardsLength s <> 0%nat ->
  let s' := calculateDimensions L s in
  cardWidth s' = cardOffsetWidth L /\
  gap s' = gapOf (gapParsed L) /\
  maxIndex s' =
    Z.max 0 (Z.of_nat (cardsLength s) -
             visibleCards (containerWidth L) (cardOffsetWidth L)
               (gapOf (gapParsed L))).
Proof.
  intros Hn. unfold calculateDimensions.
  destruct (Nat.eqb_spec (cardsLength s) 0); [contradiction|].
  simpl.
  destruct (_ <? currentIndex s); simpl; repeat split.
Qed.

Lemma calculateDimensions_clamp L s :
  cardsLength s <> 0%nat ->
  let s' := calculateDimensions L s in
  maxIndex s' < currentIndex s ->
  currentIndex s' = maxIndex s' /\
  translateX s' = - maxIndex s' * (cardWidth s' + gap s') /\
  transform s' = Some (numberOfInt (translateX s')) /\
  classIsDragging s' = true.
Proof.
  intros Hn. unfold calculateDimensions.
  destruct (Nat.eqb_spec (cardsLength s) 0); [contradiction|].
  simpl.
  destruct (Z.ltb_spec
              (Z.max 0 (Z.of_nat (cardsLength s) -
                 visibleCards (containerWidth L) (cardOffsetWidth L)
                   (gapOf (gapParsed L))))
              (currentIndex s)); simpl; intros Hlt.
  - repeat split.
  - lia.
Qed.

Lemma calculateDimensions_keep L s :
  cardsLength s <> 0%nat ->
  let s' := calculateDimensions L s in
  currentIndex s <= maxIndex s' ->
  currentIndex s' = currentIndex s /\ translateX s' = translateX s.
Proof.
  intros Hn. unfold calculateDimensions.
  destruct (Nat.eqb_spec (cardsLength s) 0); [contradiction|].
  simpl.
  destruct (Z.ltb_spec
              (Z.max 0 (Z.of_nat (cardsLength s) -
                 visibleCards (containerWidth L) (cardOffsetWidth L)
                   (gapOf (gapParsed L))))
              (currentIndex s)); simpl; intros Hle.
  - lia.
  - split; reflexivity.
Qed.

(** The states the controller goes through: the declared one, and what
    any listener makes of a state it can be in. *)
Inductive reachable : State -> Prop :=
| reach_initial n : reachable (initial n)
| reach_step s ev : reachable s -> reachable (step s ev).

(** The variables that describe dimensions and position have the values
    they are declared with. *)
Definition pristine (s : State) : Prop :=
  cardsLength s = 0%nat /\ cardWidth s = 0 /\ gap s = 24 /\
  currentIndex s = 0 /\ maxIndex s = 0 /\ translateX s = 0.

Lemma pristine_goToPrev s : pristine s -> goToPrev s = s.
Proof. intros (_ & _ & _ & I & _). apply goToPrev_le. lia. Qed.

Lemma pristine_goToNext s : pristine s -> goToNext s = s.
Proof. intros (_ & _ & _ & I & M & _). apply goToNext_ge. lia. Qed.

Lemma pristine_calculateDimensions L s :
  pristine s -> calculateDimensions L s = s.
Proof.
  intros (N & _). unfold calculateDimensions. now rewrite N.
Qed.

Lemma pristine_navigation s ev :
  pristine s -> isNavigation ev -> step s ev = s.
Proof.
  intros Hs Hev. destruct ev; simpl in *; try contradiction.
  - now apply pristine_goToPrev.
  - now apply pristine_goToNext.
  - destruct (onKeydown_cases e s) as [-> | [-> | ->]];
      [reflexivity|now apply pristine_goToPrev|now apply pristine_goToNext].
Qed.

(** One listener of the click dispatch. *)
Definition invoke (sc : State * Click) (id : nat) : State * Click :=
  if decide (id ∈ clickCapture (fst sc)) then preventClick id sc else sc.

Definition untouched : Click :=
  {| defaultPrevented := false; propagationStopped := false |}.

Definition suppressed : Click :=
  {| defaultPrevented := true; propagationStopped := true |}.

Lemma trackClick_fold s :
  trackClick s = fold_left invoke (clickCapture s) (s, untouched).
Proof. reflexivity. Qed.

(** The click dispatch touches the click listeners and nothing else. *)
Lemma dispatch_preserves (P : State -> Prop) :
  (forall id s, P s -> P (removeListener id s)) ->
  forall s, P s -> P (fst (trackClick s)).
Proof.
  intros HP s Hs. rewrite trackClick_fold.
  enough (forall l sc, P (fst sc) -> P (fst (fold_left invoke l sc))) as G
    by exact (G (clickCapture s) (s, untouched) Hs).
  induction l as [|id l IH]; intros sc Hsc; [exact Hsc|].
  simpl. apply IH. unfold invoke.
  destruct (decide _); [now apply HP|exact Hsc].
Qed.

Lemma pristine_step s ev : pristine s -> pristine (step s ev).
Proof.
  intros Hs. pose proof Hs as (N & W & G & I & M & T).
  destruct ev; simpl.
  - now rewrite pristine_goToPrev.
  - now rewrite pristine_goToNext.
  - change (pristine (step s (Keydown e))).
    now rewrite (pristine_navigation s (Keydown e)).
  - exact Hs.
  - unfold onDragMove. destruct (isDragging s); exact Hs.
  - unfold onDragEnd. destruct (isDragging s); [|exact Hs].
    assert (dragTarget (endDragging s) = 0) as D.
    { unfold dragTarget. simpl. rewrite I, M. simpl.
      now rewrite !andb_false_r. }
    destruct (10 <? _)%float; unfold pristine; simpl; rewrite D, W, G;
      repeat split; assumption.
  - apply (dispatch_preserves pristine); [|exact Hs]. now intros id s'.
  - exact Hs.
  - unfold onResizeTimer. destruct (resizeTimer s); [|exact Hs].
    unfold calculateDimensions. simpl. rewrite N. exact Hs.
  - now rewrite pristine_calculateDimensions.
Qed.

Lemma calculateDimensions_cardsLength L s :
  cardsLength (calculateDimensions L s) = cardsLength s.
Proof.
  unfold calculateDimensions.
  destruct (Nat.eqb (cardsLength s) 0); [reflexivity|].
  simpl. destruct (_ <? _); reflexivity.
Qed.

Lemma navigation_cardsLength s :
  cardsLength (goToPrev s) = cardsLength s /\
  cardsLength (goToNext s) = cardsLength s.
Proof.
  unfold goToPrev, goToNext.
  destruct (0 <? _), (_ <? maxIndex s); split; reflexivity.
Qed.

Lemma step_cardsLength s ev : cardsLength (step s ev) = cardsLength s.
Proof.
  destruct (navigation_cardsLength s) as [HP HN].
  destruct ev; simpl; try reflexivity.
  - exact HP.
  - exact HN.
  - destruct (onKeydown_cases e s) as [-> | [-> | ->]];
      [reflexivity|exact HP|exact HN].
  - unfold onDragMove. destruct (isDragging s); reflexivity.
  - unfold onDragEnd. destruct (isDragging s); [|reflexivity].
    destruct (10 <? _)%float; reflexivity.
  - apply (dispatch_preserves (fun s' => cardsLength s' = cardsLength s));
      [|reflexivity]. now intros id s'.
  - unfold onResizeTimer. destruct (resizeTimer s); [|reflexivity].
    now rewrite calculateDimensions_cardsLength.
  - apply calculateDimensions_cardsLength.
Qed.

(** A controller whose track has no cards never leaves the declared
    dimensions. *)
Lemma reachable_empty_pristine s :
  reachable s -> cardsLength s = 0%nat -> pristine s.
Proof.
  induction 1 as [n|s ev Hs IH]; intros N.
  - simpl in N. subst n. repeat split.
  - apply pristine_step, IH. now rewrite step_cardsLength in N.
Qed.

(** C3. A dimension recalculation, in any state the controller can be
    in and on read-outs a browser can produce, has [visibleCards] the floor
    of [containerWidth / (cardWidth + gap)] (the card width and the gap are
    the ones read from the document when the track has cards) and
    [maxIndex = max(0, totalCards - visibleCards)]; when the index it finds
    is above the new [maxIndex], the index becomes [maxIndex] and the offset
    [-maxIndex * (cardWidth + gap)], written to the transform with the
    [is-dragging] class on, that is without animation. With 6 cards and 3
    visible [maxIndex] is 3, and from index 1 three calls of [goToNext] give
    the indices 2, 3 and 3. *)
Theorem recalculation_sets_max_and_clamps (L : Layout) (s : State) :
  reachable s ->
  layout_ok L ->
  let s' := calculateDimensions L s in
  let v := visibleCards (containerWidth L) (cardWidth s') (gap s') in
  (cardsLength s <> 0%nat ->
     cardWidth s' = cardOffsetWidth L /\ gap s' = gapOf (gapParsed L)) /\
  v * (cardWidth s' + gap s') <= containerWidth L
    < (v + 1) * (cardWidth s' + gap s') /\
  maxIndex s' = Z.max 0 (Z.of_nat (cardsLength s) - v) /\
  (maxIndex s' < currentIndex s ->
     currentIndex s' = maxIndex s' /\
     translateX s' = - maxIndex s' * (cardWidth s' + gap s') /\
     transform s' = Some (numberOfInt (translateX s')) /\
     classIsDragging s' = true) /\
  (cardsLength s = 6%nat -> v = 3 -> currentIndex s = 1 ->
     maxIndex s' = 3 /\
     currentIndex (goToNext s') = 2 /\
     currentIndex (goToNext (goToNext s')) = 3 /\
     currentIndex (goToNext (goToNext (goToNext s'))) = 3).
Proof.
  intros Hreach (Hcw & Hcont & Hgap) s' v.
  destruct (Nat.eq_dec (cardsLength s) 0%nat) as [Hz|Hn].
  - (* no cards: nothing is recomputed, and nothing had ever been *)
    pose proof (reachable_empty_pristine s Hreach Hz) as Hs.
    assert (s' = s) as E by now apply pristine_calculateDimensions.
    destruct Hs as (_ & W & G & I & M & _).
    subst v. rewrite E, W, G, M, I, Hz. clear E.
    split; [intros Hne; now contradiction Hne|].
    split; [apply visibleCards_floor; lia|]. split.
    + assert (0 <= visibleCards (containerWidth L) 0 24)
        by (apply Z.div_pos; lia).
      simpl. lia.
    + split; [lia|discriminate].
  - destruct (calculateDimensions_dims L s Hn) as (Ecw & Eg & Emax).
    fold s' in Ecw, Eg, Emax.
    assert (maxIndex s' = Z.max 0 (Z.of_nat (cardsLength s) - v)) as Emax'.
    { subst v. now rewrite Ecw, Eg. }
    split; [now intros _|]. split; [|split; [exact Emax'|split]].
    + subst v. apply visibleCards_floor.
      rewrite Ecw, Eg. pose proof (gapOf_pos _ Hgap). lia.
    + apply (calculateDimensions_clamp L s Hn).
    + intros H6 Hv H1.
      assert (maxIndex s' = 3) as M by (rewrite Emax', H6, Hv; reflexivity).
      destruct (calculateDimensions_keep L s Hn) as [I _].
      { fold s'. lia. }
      fold s' in I. rewrite H1 in I.
      destruct (goToNext_lt s') as [I1 M1]; [lia|].
      destruct (goToNext_lt (goToNext s')) as [I2 M2]; [lia|].
      assert (goToNext (goToNext (goToNext s')) = goToNext (goToNext s'))
        as E3.
      { apply goToNext_ge. lia. }
      rewrite E3. repeat split; lia.
Qed.

Lemma demoState_reachable : reachable demoState.
Proof. exact (reach_step _ (WindowLoad demoLayout) (reach_initial 6)). Qed.

(** The same six cards after two steps, when the container grows to
    1700px: five cards fit, the index 2 is brought back to 1. *)
Lemma recalculation_sets_max_and_clamps_witness :
  let L := {| cardOffsetWidth := 300; gapParsed := Some 24;
              containerWidth := 1700 |} in
  let s := goToNext (goToNext demoState) in
  currentIndex s = 2 /\
  maxIndex (calculateDimensions L s) = 1 /\
  currentIndex (calculateDimensions L s) = 1 /\
  translateX (calculateDimensions L s) = -324.
Proof.
  intros L s.
  assert (reachable s) as Hs
    by exact (reach_step _ NextButton
                (reach_step _ NextButton demoState_reachable)).
  assert (layout_ok L) as HL by (vm_compute; repeat split; discriminate).
  destruct (recalculation_sets_max_and_clamps L s Hs HL)
    as (_ & _ & Hmax & Hclamp & _).
  assert (maxIndex (calculateDimensions L s) = 1) as M
    by (rewrite Hmax; vm_compute; reflexivity).
  destruct Hclamp as (I & T & _); [rewrite M; vm_compute; reflexivity|].
  split; [reflexivity|]. split; [exact M|]. split.
  - now rewrite I.
  - rewrite T, M. vm_compute. reflexivity.
Defined.

(** ** The offset and the index *)

(** The offset variable agrees with the index. *)
Definition offsetInSync (s : State) : Prop :=
  translateX s = - currentIndex s * (cardWidth s + gap s).

Definition isRecalculation (ev : Event) : Prop :=
  match ev with
  | ResizeTimer _ | WindowLoad _ => True
  | _ => False
  end.

Lemma goToPrev_offsetInSync s : offsetInSync s -> offsetInSync (goToPrev s).
Proof.
  unfold offsetInSync, goToPrev. intros H.
  destruct (0 <? currentIndex s); [reflexivity|exact H].
Qed.

Lemma goToNext_offsetInSync s : offsetInSync s -> offsetInSync (goToNext s).
Proof.
  unfold offsetInSync, goToNext. intros H.
  destruct (currentIndex s <? maxIndex s); [reflexivity|exact H].
Qed.

(** Every listener but the recalculation keeps the offset on the index. *)
Lemma offsetInSync_step s ev :
  ~ isRecalculation ev -> offsetInSync s -> offsetInSync (step s ev).
Proof.
  intros Hev H. destruct ev; simpl in *; try (exfalso; now apply Hev).
  - now apply goToPrev_offsetInSync.
  - now apply goToNext_offsetInSync.
  - destruct (onKeydown_cases e s) as [-> | [-> | ->]];
      [exact H|now apply goToPrev_offsetInSync|now apply goToNext_offsetInSync].
  - exact H.
  - unfold onDragMove. destruct (isDragging s); exact H.
  - unfold onDragEnd. destruct (isDragging s); [|exact H].
    destruct (10 <? _)%float; reflexivity.
  - apply (dispatch_preserves offsetInSync); [|exact H]. now intros id s'.
  - exact H.
Qed.

(** The narrower window of the failing run: cards of 200px in a 700px
    container, three of them visible as before. *)
Definition narrowLayout : Layout :=
  {| cardOffsetWidth := 200; gapParsed := Some 24; containerWidth := 700 |}.

(** C6, at the failing input. Six cards, one step to the right, then a
    resize to narrower cards that leaves [maxIndex] at 3: no drag is going
    on, the index is 1 and needs no clamping, the cards are 200px wide, and
    [translateX] is still the -324 of the old width while
    [-currentIndex * (cardWidth + gap)] is -224. *)
Theorem recalculation_without_clamp_leaves_stale_offset :
  let s := run demoState [NextButton; Resize; ResizeTimer narrowLayout] in
  isDragging s = false /\
  currentIndex s = 1 /\ maxIndex s = 3 /\ cardWidth s = 200 /\ gap s = 24 /\
  translateX s = -324 /\
  transform s = Some (numberOfInt (-324)) /\
  - currentIndex s * (cardWidth s + gap s) = -224.
Proof.
  vm_compute. repeat split.
Qed.

(** ** Click suppression after a drag *)

Lemma invoke_capture sc id :
  clickCapture (fst (invoke sc id)) =
  filter (fun j => j <> id) (clickCapture (fst sc)).
Proof.
  unfold invoke. destruct (decide (id ∈ clickCapture (fst sc))) as [Hin|Hout].
  - reflexivity.
  - symmetry. induction (clickCapture (fst sc)) as [|j l IH]; [reflexivity|].
    rewrite filter_cons.
    destruct (decide (j <> id)) as [Hne|Heq].
    + f_equal. apply IH. intros Hl. apply Hout. now right.
    + exfalso. apply Hout. apply dec_stable in Heq. subst j. now left.
Qed.

(** After the dispatch no listener of the snapshot is registered. *)
Lemma dispatch_capture l sc :
  clickCapture (fst (fold_left invoke l sc)) =
  filter (fun j => j ∉ l) (clickCapture (fst sc)).
Proof.
  revert sc. induction l as [|id l IH]; intros sc; simpl.
  - symmetry. induction (clickCapture (fst sc)) as [|j c IHc]; [reflexivity|].
    rewrite filter_cons.
    destruct (decide (j ∉ [])) as [_|H]; [now f_equal|].
    exfalso. apply H. apply not_elem_of_nil.
  - rewrite IH, invoke_capture.
    induction (clickCapture (fst sc)) as [|j c IHc]; [reflexivity|].
    rewrite !filter_cons.
    destruct (decide (j <> id)) as [Hne|Heq].
    + rewrite filter_cons.
      destruct (decide (j ∉ l)) as [H1|H1];
        destruct (decide (j ∉ id :: l)) as [H2|H2].
      * now f_equal.
      * exfalso. apply H2. intros [->|H]%elem_of_cons; [now apply Hne|now apply H1].
      * exfalso. apply H1. intros H. apply H2. now right.
      * exact IHc.
    + destruct (decide (j ∉ id :: l)) as [H2|H2]; [|exact IHc].
      exfalso. apply dec_stable in Heq. subst j. apply H2. now left.
Qed.

Lemma filter_absent_nil (l c : list nat) :
  (forall j, j ∈ c -> j ∈ l) -> filter (fun j => j ∉ l) c = [].
Proof.
  induction c as [|j c IH]; intros Hsub; [reflexivity|].
  rewrite filter_cons. destruct (decide (j ∉ l)) as [H|_].
  - exfalso. apply H. apply Hsub. now left.
  - apply IH. intros k Hk. apply Hsub. now right.
Qed.

Lemma trackClick_capture s : clickCapture (fst (trackClick s)) = [].
Proof.
  rewrite trackClick_fold, dispatch_capture. simpl.
  now apply filter_absent_nil.
Qed.

(** A flag that is set stays set through the rest of the dispatch. *)
Lemma dispatch_suppressed l sc :
  snd sc = suppressed -> snd (fold_left invoke l sc) = suppressed.
Proof.
  revert sc. induction l as [|id l IH]; intros sc H; simpl; [exact H|].
  apply IH. unfold invoke. destruct (decide _); [reflexivity|exact H].
Qed.

Lemma trackClick_suppressed s :
  clickCapture s <> [] -> snd (trackClick s) = suppressed.
Proof.
  intros Hne. rewrite trackClick_fold.
  destruct (clickCapture s) as [|id l] eqn:E; [contradiction|].
  simpl. apply dispatch_suppressed.
  unfold invoke. simpl. rewrite E.
  destruct (decide (id ∈ id :: l)) as [_|H]; [reflexivity|].
  exfalso. apply H. now left.
Qed.

Lemma trackClick_untouched s :
  clickCapture s = [] -> trackClick s = (s, untouched).
Proof.
  intros H. rewrite trackClick_fold, H. reflexivity.
Qed.

Lemma calculateDimensions_capture L s :
  clickCapture (calculateDimensions L s) = clickCapture s.
Proof.
  unfold calculateDimensions.
  destruct (Nat.eqb (cardsLength s) 0); [reflexivity|].
  simpl. destruct (_ <? _); reflexivity.
Qed.

Lemma navigation_capture s :
  clickCapture (goToPrev s) = clickCapture s /\
  clickCapture (goToNext s) = clickCapture s /\
  forall e, clickCapture (onKeydown e s) = clickCapture s.
Proof.
  assert (clickCapture (goToPrev s) = clickCapture s) as HP.
  { unfold goToPrev. destruct (_ <? _); reflexivity. }
  assert (clickCapture (goToNext s) = clickCapture s) as HN.
  { unfold goToNext. destruct (_ <? _); reflexivity. }
  repeat split; [exact HP|exact HN|].
  intros e. destruct (onKeydown_cases e s) as [-> | [-> | ->]];
    [reflexivity|exact HP|exact HN].
Qed.

(** No listener but the click dispatch removes a click listener. *)
Lemma step_capture_grows s ev :
  ev <> TrackClick ->
  exists more, clickCapture (step s ev) = clickCapture s ++ more.
Proof.
  intros Hev. destruct (navigation_capture s) as (HP & HN & HK).
  assert (forall s', clickCapture s' = clickCapture s ->
            exists more, clickCapture s' = clickCapture s ++ more) as same.
  { intros s' ->. exists []. now rewrite app_nil_r. }
  destruct ev; simpl; try contradiction.
  - now apply same.
  - now apply same.
  - now apply same.
  - now apply same.
  - apply same. unfold onDragMove. destruct (isDragging s); reflexivity.
  - unfold onDragEnd. destruct (isDragging s); [|now apply same].
    destruct (10 <? _)%float; simpl; [now eexists|now apply same].
  - now apply same.
  - apply same. unfold onResizeTimer. destruct (resizeTimer s); [|reflexivity].
    now rewrite calculateDimensions_capture.
  - apply same. apply calculateDimensions_capture.
Qed.

Lemma run_capture_nonempty s evs :
  Forall (fun ev => ev <> TrackClick) evs ->
  clickCapture s <> [] -> clickCapture (run s evs) <> [].
Proof.
  intros Hevs. revert s. induction Hevs as [|ev evs Hev _ IH]; intros s Hne.
  - exact Hne.
  - simpl. apply IH.
    destruct (step_capture_grows s ev Hev) as [more ->].
    destruct (clickCapture s); [contradiction|discriminate].
Qed.

(** Only the end of a drag registers a click listener. *)
Lemma step_capture_empty s ev :
  ev <> DragEnd -> clickCapture s = [] -> clickCapture (step s ev) = [].
Proof.
  intros Hev Hs. destruct (navigation_capture s) as (HP & HN & HK).
  destruct ev; simpl; try contradiction.
  - now rewrite HP.
  - now rewrite HN.
  - now rewrite HK.
  - exact Hs.
  - unfold onDragMove. destruct (isDragging s); exact Hs.
  - apply trackClick_capture.
  - exact Hs.
  - unfold onResizeTimer. destruct (resizeTimer s); [|exact Hs].
    now rewrite calculateDimensions_capture.
  - now rewrite calculateDimensions_capture.
Qed.

Lemma run_capture_empty s evs :
  Forall (fun ev => ev <> DragEnd) evs ->
  clickCapture s = [] -> clickCapture (run s evs) = [].
Proof.
  intros Hevs. revert s. induction Hevs as [|ev evs Hev _ IH]; intros s Hs.
  - exact Hs.
  - simpl. apply IH. now apply step_capture_empty.
Qed.

Lemma onDragEnd_long s :
  isDragging s = true ->
  (10 <? abs (currentX s - startX s))%float = true ->
  clickCapture (onDragEnd s) = clickCapture s ++ [nextClosure s].
Proof.
  intros Hd Hlong. unfold onDragEnd, dragDiff. rewrite Hd. now rewrite Hlong.
Qed.

Lemma onDragEnd_short s :
  (abs (currentX s - startX s) <=? 10)%float = true ->
  clickCapture (onDragEnd s) = clickCapture s /\
  nextClosure (onDragEnd s) = nextClosure s.
Proof.
  intros Hshort. unfold onDragEnd, dragDiff.
  destruct (isDragging s); [|now split].
  apply leb_not_ltb in Hshort. rewrite Hshort. now split.
Qed.

(** C8. A drag ends while [isDragging]; its distance is
    [Math.abs(currentX - startX)], the difference being the number
    JavaScript computes. If the distance is above 10 pixels, the next click
    on the track, whatever else happens before it, is prevented and its
    propagation stopped; that click leaves no capturing listener behind, so
    every click after it is untouched until another drag ends. If the
    distance is at most 10 pixels the end of the drag registers no listener,
    and with none registered before the next click is untouched. *)
Theorem long_drag_suppresses_next_click_once
    (s : State) (before later : list Event) :
  isDragging s = true ->
  Forall (fun ev => ev <> TrackClick) before ->
  Forall (fun ev => ev <> DragEnd) later ->
  ((10 <? abs (currentX s - startX s))%float = true ->
     let s1 := run (onDragEnd s) before in
     let s2 := fst (trackClick s1) in
     snd (trackClick s1) = suppressed /\
     clickCapture s2 = [] /\
     snd (trackClick s2) = untouched /\
     snd (trackClick (run s2 later)) = untouched) /\
  ((abs (currentX s - startX s) <=? 10)%float = true ->
     clickCapture (onDragEnd s) = clickCapture s /\
     (clickCapture s = [] -> snd (trackClick (onDragEnd s)) = untouched)).
Proof.
  intros Hd Hbefore Hlater. split.
  - intros Hlong s1 s2.
    assert (clickCapture s1 <> []) as Hne.
    { apply run_capture_nonempty; [exact Hbefore|].
      rewrite (onDragEnd_long s Hd Hlong).
      destruct (clickCapture s); discriminate. }
    assert (clickCapture s2 = []) as Hempty by apply trackClick_capture.
    split; [now apply trackClick_suppressed|]. split; [exact Hempty|]. split.
    + now rewrite trackClick_untouched.
    + rewrite trackClick_untouched; [reflexivity|].
      now apply run_capture_empty.
  - intros Hshort. destruct (onDragEnd_short s Hshort) as [Hc _].
    split; [exact Hc|]. intros Hs.
    rewrite trackClick_untouched; [reflexivity|]. now rewrite Hc.
Qed.

Lemma long_drag_suppresses_next_click_once_witness :
  let s1 := run (onDragEnd demoDrag) [Resize; NextButton] in
  snd (trackClick s1) = suppressed /\
  snd (trackClick (fst (trackClick s1))) = untouched.
Proof.
  intros s1.
  assert (Forall (fun ev => ev <> TrackClick) [Resize; NextButton]) as Hb
    by (repeat constructor; discriminate).
  assert (Forall (fun ev => ev <> DragEnd) [PrevButton; TrackClick]) as Hl
    by (repeat constructor; discriminate).
  destruct (long_drag_suppresses_next_click_once demoDrag _ _ eq_refl Hb Hl)
    as [Hlong _].
  destruct Hlong as (H1 & _ & H2 & _); [vm_compute; reflexivity|].
  split; [exact H1|exact H2].
Defined.

(** The pointer goes from 0.5 to 10.75: the distance is 10.25 and the
    next click is suppressed; from 0.3 to 10.3 the difference JavaScript
    computes is exactly 10, no listener is registered and the next click is
    untouched. *)
Example drag_just_above_and_at_ten_pixels :
  snd (trackClick (onDragEnd (onDragMove 10.75 (onDragStart 0.5 demoState))))
    = suppressed /\
  (0x1.499999999999ap+3 - 0x1.3333333333333p-2)%float = 10%float /\
  snd (trackClick
         (onDragEnd (onDragMove 0x1.499999999999ap+3
                       (onDragStart 0x1.3333333333333p-2 demoState))))
    = untouched.
Proof. vm_compute. repeat split. Qed.

(** ** A page without a track, a track without cards *)

Lemma pristine_run s evs : pristine s -> pristine (run s evs).
Proof.
  revert s. induction evs as [|ev evs IH]; intros s Hs; [exact Hs|].
  simpl. apply IH. now apply pristine_step.
Qed.

Lemma dispatchAll_None evs : dispatchAll None evs = None.
Proof. induction evs as [|ev evs IH]; [reflexivity|exact IH]. Qed.

(** C9, as the code violates it. On a page with a track that has no cards
    the controller exists, and a pointer going down on the track and moving
    changes its state and the track element: a drag is under way, the
    [is-dragging] class is on, the transform follows the pointer; and the
    end of that drag registers a click listener that suppresses the next
    click on the track. *)
Lemma empty_track_still_follows_drags :
  let c := boot (Some O) demoLayout in
  c = Some (initial 0) /\
  dispatch c (DragStart 500) <> c /\
  isDragging <$> dispatch c (DragStart 500) = Some true /\
  classIsDragging <$> dispatch c (DragStart 500) = Some true /\
  transform <$> dispatchAll c [DragStart 500; DragMove 400] =
    Some (Some (-100)%float) /\
  (fun s => snd (trackClick s)) <$>
    dispatchAll c [DragStart 500; DragMove 400; DragEnd] = Some suppressed.
Proof.
  vm_compute. repeat split. discriminate.
Qed.

(** C9, amended. Without a track element the script stops before it
    declares any state or registers any listener, so no interaction has an
    effect. With a track that has no cards the listeners are registered and
    only the dimension calculation is skipped: whatever the interactions,
    the card width, the gap, the index, [maxIndex] and [translateX] keep the
    values 0, 24, 0, 0 and 0 they are declared with, and the buttons, the
    keys and a recalculation leave the whole state as it is. *)
Theorem absent_track_inert_empty_track_pristine
    (L : Layout) (evs : list Event) :
  boot None L = None /\
  dispatchAll (boot None L) evs = None /\
  boot (Some O) L = Some (initial 0) /\
  dispatchAll (boot (Some O) L) evs = Some (run (initial 0) evs) /\
  let s := run (initial 0) evs in
  pristine s /\
  (forall ev, isNavigation ev -> step s ev = s) /\
  (forall L', calculateDimensions L' s = s).
Proof.
  assert (pristine (initial 0)) as H0 by (repeat split).
  split; [reflexivity|]. split; [apply dispatchAll_None|].
  split; [reflexivity|]. split.
  - change (boot (Some O) L) with (Some (initial 0)).
    generalize (initial 0). induction evs as [|ev evs IH]; intros s.
    + reflexivity.
    + simpl. apply IH.
  - intros s. pose proof (pristine_run (initial 0) evs H0) as Hs. fold s in Hs.
    split; [exact Hs|]. split.
    + intros ev. now apply pristine_navigation.
    + intros L'. now apply pristine_calculateDimensions.
Qed.

(** ** The index over whole runs *)

Lemma calculateDimensions_inRange L s :
  inRange s -> inRange (calculateDimensions L s).
Proof.
  unfold inRange, calculateDimensions. intros H.
  destruct (Nat.eqb (cardsLength s) 0); [exact H|]. simpl.
  destruct (Z.ltb_spec
              (Z.max 0 (Z.of_nat (cardsLength s) -
                 visibleCards (containerWidth L) (cardOffsetWidth L)
                   (gapOf (gapParsed L))))
              (currentIndex s)); simpl; lia.
Qed.

Lemma dragTarget_inRange s :
  inRange s -> 0 <= dragTarget s <= maxIndex s.
Proof.
  unfold inRange, dragTarget. intros H.
  destruct (Z.ltb_spec 0 (currentIndex s));
    destruct (Z.ltb_spec (currentIndex s) (maxIndex s));
    destruct (threshold s <? dragDiff s)%float;
    destruct (dragDiff s <? - threshold s)%float; simpl; lia.
Qed.

Lemma inRange_step s ev : inRange s -> inRange (step s ev).
Proof.
  intros H. destruct ev; simpl.
  - now apply goToPrev_inRange.
  - now apply goToNext_inRange.
  - now apply (navigation_step_inRange s (Keydown e)).
  - exact H.
  - unfold onDragMove. destruct (isDragging s); exact H.
  - unfold onDragEnd. destruct (isDragging s); [|exact H].
    pose proof (dragTarget_inRange (endDragging s) H) as D.
    destruct (10 <? _)%float; exact D.
  - apply (dispatch_preserves inRange); [|exact H]. now intros id s'.
  - exact H.
  - unfold onResizeTimer. destruct (resizeTimer s); [|exact H].
    now apply calculateDimensions_inRange.
  - now apply calculateDimensions_inRange.
Qed.

Lemma run_inRange s evs : inRange s -> inRange (run s evs).
Proof.
  revert s. induction evs as [|ev evs IH]; intros s Hs; [exact Hs|].
  simpl. apply IH. now apply inRange_step.
Qed.

(** X1. Whatever the track, the events and the layouts read, the index is
    never below 0 nor above [maxIndex]: every place that writes it checks
    the bounds first, or clamps. *)
Theorem index_always_in_range (n : nat) (evs : list Event) :
  inRange (run (initial n) evs).
Proof.
  apply run_inRange. unfold inRange. simpl. lia.
Qed.

(** ** The dimensions over whole runs *)

(** The layouts an event carries are read-outs of a browser. *)
Definition eventOk (ev : Event) : Prop :=
  match ev with
  | ResizeTimer L | WindowLoad L => layout_ok L
  | _ => True
  end.

Definition dimensionsOk (s : State) : Prop :=
  0 <= cardWidth s /\ 1 <= gap s /\ maxIndex s <= Z.of_nat (cardsLength s).

Lemma calculateDimensions_dimensionsOk L s :
  layout_ok L -> dimensionsOk s -> dimensionsOk (calculateDimensions L s).
Proof.
  intros (Hcw & Hcont & Hgap) Hs.
  destruct (Nat.eq_dec (cardsLength s) 0%nat) as [Hz|Hn].
  - unfold calculateDimensions. now rewrite Hz.
  - destruct (calculateDimensions_dims L s Hn) as (Ecw & Eg & Emax).
    unfold dimensionsOk.
    rewrite Ecw, Eg, Emax, calculateDimensions_cardsLength.
    pose proof (gapOf_pos _ Hgap) as Hg.
    assert (0 <= visibleCards (containerWidth L) (cardOffsetWidth L)
                   (gapOf (gapParsed L)))
      by (apply Z.div_pos; lia).
    lia.
Qed.

Lemma dimensions_unchanged s ev :
  ~ isRecalculation ev ->
  cardWidth (step s ev) = cardWidth s /\ gap (step s ev) = gap s /\
  maxIndex (step s ev) = maxIndex s.
Proof.
  intros Hev.
  assert (forall s', s' = s \/ s' = goToPrev s \/ s' = goToNext s ->
            cardWidth s' = cardWidth s /\ gap s' = gap s /\
            maxIndex s' = maxIndex s) as nav.
  { intros s' [-> | [-> | ->]]; [now repeat split| |].
    - unfold goToPrev. destruct (_ <? _); now repeat split.
    - unfold goToNext. destruct (_ <? _); now repeat split. }
  destruct ev; simpl in *; try (exfalso; now apply Hev).
  - apply nav. now right; left.
  - apply nav. now right; right.
  - apply nav. apply onKeydown_cases.
  - now repeat split.
  - unfold onDragMove. destruct (isDragging s); now repeat split.
  - unfold onDragEnd. destruct (isDragging s); [|now repeat split].
    destruct (10 <? _)%float; now repeat split.
  - apply (dispatch_preserves
             (fun s' => cardWidth s' = cardWidth s /\ gap s' = gap s /\
                        maxIndex s' = maxIndex s));
      [now intros id s'|now repeat split].
  - now repeat split.
Qed.

Lemma dimensionsOk_step s ev :
  eventOk ev -> dimensionsOk s -> dimensionsOk (step s ev).
Proof.
  intros Hev Hs.
  assert (~ isRecalculation ev -> dimensionsOk (step s ev)) as other.
  { intros Hn. destruct (dimensions_unchanged s ev Hn) as (W & G & M).
    unfold dimensionsOk. now rewrite W, G, M, step_cardsLength. }
  destruct ev; try (apply other; now intros []); simpl in *.
  - unfold onResizeTimer. destruct (resizeTimer s); [|exact Hs].
    now apply calculateDimensions_dimensionsOk.
  - now apply calculateDimensions_dimensionsOk.
Qed.

(** X2. When every layout read is one a browser can produce (no negative
    width, no negative gap), the card width is never negative, the gap is
    at least one pixel, so that the division by [cardWidth + gap] is never
    one by zero, and [maxIndex] never exceeds the number of cards. *)
Theorem dimensions_stay_sound (n : nat) (evs : list Event) :
  Forall eventOk evs ->
  let s := run (initial n) evs in
  0 <= cardWidth s /\ 1 <= gap s /\ 0 < cardWidth s + gap s /\
  0 <= maxIndex s <= Z.of_nat n.
Proof.
  intros Hevs s.
  assert (dimensionsOk s /\ cardsLength s = n) as [(W & G & M) N].
  { subst s.
    assert (dimensionsOk (initial n) /\ cardsLength (initial n) = n) as H0
      by (unfold dimensionsOk; simpl; repeat split; lia).
    revert H0. generalize (initial n).
    induction Hevs as [|ev evs Hev _ IH]; intros s0 [H0 N0]; [now split|].
    simpl. apply IH. split; [now apply dimensionsOk_step|].
    now rewrite step_cardsLength. }
  assert (inRange (initial n)) as R0 by (unfold inRange; simpl; lia).
  pose proof (run_inRange (initial n) evs R0) as R. fold s in R.
  unfold inRange in R. rewrite N in M. repeat split; lia.
Qed.

Lemma dimensions_stay_sound_witness :
  let s := run (initial 6)
             [WindowLoad demoLayout; NextButton; Resize;
              ResizeTimer narrowLayout] in
  0 <= cardWidth s /\ 1 <= gap s /\ 0 < cardWidth s + gap s /\
  0 <= maxIndex s <= 6.
Proof.
  apply (dimensions_stay_sound 6
           [WindowLoad demoLayout; NextButton; Resize;
            ResizeTimer narrowLayout]).
  repeat constructor; simpl; lia.
Defined.

(** ** A container that shows every card *)

Lemma run_keeps_maxIndex s evs :
  Forall (fun ev => ~ isRecalculation ev) evs ->
  maxIndex (run s evs) = maxIndex s.
Proof.
  intros Hevs. revert s.
  induction Hevs as [|ev evs Hev _ IH]; intros s; [reflexivity|].
  simpl. rewrite IH. now apply dimensions_unchanged.
Qed.

(** X3. When the container is wide enough for all the cards, a recalculation
    sets [maxIndex] to 0 and brings the index to 0, and until the next
    recalculation no button, key or drag moves the slider. *)
Theorem all_cards_visible_disables_navigation
    (L : Layout) (s : State) (evs : list Event) :
  cardsLength s <> 0%nat ->
  layout_ok L ->
  inRange s ->
  Z.of_nat (cardsLength s) * (cardOffsetWidth L + gapOf (gapParsed L))
    <= containerWidth L ->
  Forall (fun ev => ~ isRecalculation ev) evs ->
  let s' := run (calculateDimensions L s) evs in
  maxIndex s' = 0 /\ currentIndex s' = 0.
Proof.
  intros Hn (Hcw & Hcont & Hgap) Hin Hfit Hevs s'.
  destruct (calculateDimensions_dims L s Hn) as (_ & _ & Emax).
  pose proof (gapOf_pos _ Hgap) as Hg.
  assert (maxIndex (calculateDimensions L s) = 0) as M0.
  { rewrite Emax. unfold visibleCards.
    assert (Z.of_nat (cardsLength s) <=
            containerWidth L / (cardOffsetWidth L + gapOf (gapParsed L))).
    { apply Z.div_le_lower_bound; lia. }
    lia. }
  assert (maxIndex s' = 0) as M by (subst s'; now rewrite run_keeps_maxIndex).
  split; [exact M|].
  pose proof (run_inRange _ evs (calculateDimensions_inRange L s Hin)) as R.
  fold s' in R. unfold inRange in R. lia.
Qed.

Lemma all_cards_visible_disables_navigation_witness :
  let L := {| cardOffsetWidth := 300; gapParsed := Some 24;
              containerWidth := 2000 |} in
  let s' := run (calculateDimensions L (goToNext demoState))
              [NextButton; DragStart 500; DragMove 100; DragEnd] in
  maxIndex s' = 0 /\ currentIndex s' = 0.
Proof.
  intros L.
  apply (all_cards_visible_disables_navigation L (goToNext demoState)).
  - vm_compute. discriminate.
  - vm_compute. repeat split; discriminate.
  - unfold inRange. vm_compute. split; discriminate.
  - vm_compute. discriminate.
  - repeat constructor; intros [].
Defined.

(** X4. A recalculation on a layout that has not changed since the last one
    changes nothing: the one at [load] after the one of [init], or the one
    of a resize that ends where it began. *)
Theorem recalculation_idempotent (L : Layout) (s : State) :
  calculateDimensions L (calculateDimensions L s) = calculateDimensions L s.
Proof.
  unfold calculateDimensions.
  destruct (Nat.eqb (cardsLength s) 0) eqn:N; [now rewrite N|].
  simpl.
  set (mx := Z.max 0 (Z.of_nat (cardsLength s) -
                      visibleCards (containerWidth L) (cardOffsetWidth L)
                        (gapOf (gapParsed L)))).
  destruct (mx <? currentIndex s) eqn:C; simpl; rewrite N; simpl; fold mx.
  - now rewrite Z.ltb_irrefl.
  - now rewrite C.
Qed.

(** ** The keyboard *)

(** X5. The arrow keys act only while the section of the slider meets the
    viewport: without a [.portfolio-section] around the track, or with that
    section entirely below or entirely above the viewport, a keydown
    changes nothing; with it in view the left arrow is the previous button,
    the right arrow the next button, and any other key nothing. *)
Theorem keyboard_only_while_section_in_view (e : KeyEvent) (s : State) :
  (sectionRect e = None -> onKeydown e s = s) /\
  (forall top bottom,
      sectionRect e = Some (top, bottom) ->
      (innerHeight e <= top)%Q \/ (bottom <= 0)%Q ->
      onKeydown e s = s) /\
  (forall top bottom,
      sectionRect e = Some (top, bottom) ->
      (top < innerHeight e)%Q -> (0 < bottom)%Q ->
      (key e = "ArrowLeft" -> onKeydown e s = goToPrev s) /\
      (key e = "ArrowRight" -> onKeydown e s = goToNext s) /\
      (key e <> "ArrowLeft" -> key e <> "ArrowRight" -> onKeydown e s = s)).
Proof.
  unfold onKeydown. split; [|split].
  - now intros ->.
  - intros top bottom -> [H|H].
    + apply Qltb_ge in H. now rewrite H.
    + apply Qltb_ge in H. rewrite H. now rewrite andb_false_r.
  - intros top bottom -> Ht Hb.
    apply Qltb_lt in Ht. apply Qltb_lt in Hb. rewrite Ht, Hb. simpl.
    split; [|split].
    + now intros ->.
    + now intros ->.
    + intros Hl Hr. apply String.eqb_neq in Hl. apply String.eqb_neq in Hr.
      now rewrite Hl, Hr.
Qed.

(** ** Gestures *)

Lemma onDragMove_again x y s :
  isDragging s = true -> onDragMove x (onDragMove y s) = onDragMove x s.
Proof.
  intros H. unfold onDragMove. rewrite H. simpl. rewrite ?H. reflexivity.
Qed.

Lemma onDragMove_isDragging x s :
  isDragging (onDragMove x s) = isDragging s.
Proof. unfold onDragMove. destruct (isDragging s) eqn:H; [reflexivity|exact H]. Qed.

Lemma run_moves_collapse s xs x :
  isDragging s = true ->
  run s ((DragMove <$> xs) ++ [DragMove x]) = onDragMove x s.
Proof.
  revert s. induction xs as [|y xs IH]; intros s H; [reflexivity|].
  simpl. change (fold_left step ?l ?a) with (run a l).
  rewrite IH by now rewrite onDragMove_isDragging.
  now apply onDragMove_again.
Qed.

(** X6. Of a gesture only the point where it starts and the last point it
    reaches count: whatever the moves in between, the state before the
    release, and so the card the release settles on, is that of a single
    move to the last point. *)
Theorem gesture_depends_on_its_end_points
    (s : State) (x0 : float) (xs : list float) (x : float) :
  run s (DragStart x0 :: (DragMove <$> xs) ++ [DragMove x]) =
    onDragMove x (onDragStart x0 s) /\
  run s (DragStart x0 :: (DragMove <$> xs) ++ [DragMove x; DragEnd]) =
    onDragEnd (onDragMove x (onDragStart x0 s)).
Proof.
  assert (run s (DragStart x0 :: (DragMove <$> xs) ++ [DragMove x]) =
          onDragMove x (onDragStart x0 s)) as E.
  { simpl. change (fold_left step ?l ?a) with (run a l).
    now apply run_moves_collapse. }
  split; [exact E|].
  change [DragMove x; DragEnd] with ([DragMove x] ++ [DragEnd]).
  rewrite app_assoc, app_comm_cons. unfold run in *.
  rewrite fold_left_app, E. reflexivity.
Qed.

(** X7. The pointer listeners on the window run for every move and release
    on the page; outside a drag they leave the slider alone. *)
Theorem pointer_outside_a_drag_is_ignored (s : State) (evs : list Event) :
  isDragging s = false ->
  Forall (fun ev => ev = DragEnd \/ exists x, ev = DragMove x) evs ->
  run s evs = s.
Proof.
  intros H Hevs. induction Hevs as [|ev evs Hev _ IH]; [reflexivity|].
  simpl. change (fold_left step ?l ?a) with (run a l).
  assert (step s ev = s) as ->; [|exact IH].
  destruct Hev as [->|[x ->]]; simpl.
  - unfold onDragEnd. now rewrite H.
  - unfold onDragMove. now rewrite H.
Qed.

Lemma pointer_outside_a_drag_is_ignored_witness :
  run demoState [DragMove 10; DragMove 700; DragEnd; DragMove 3] = demoState.
Proof.
  apply pointer_outside_a_drag_is_ignored; [reflexivity|].
  repeat (apply List.Forall_cons; [first [now left | right; now eexists]|]).
  apply List.Forall_nil.
Defined.

(** X8. A press and a release at the same point, with no move in between (a
    tap or a plain click on a card), never moves the slider and never
    blocks the click that follows: the index and the click listeners are
    as before, the drag is over and the transition class is off. *)
Theorem tap_moves_nothing_blocks_nothing (s : State) (x : float) :
  0 <= cardWidth s ->
  let s' := onDragEnd (onDragStart x s) in
  currentIndex s' = currentIndex s /\
  clickCapture s' = clickCapture s /\
  isDragging s' = false /\ classIsDragging s' = false /\
  translateX s' = - currentIndex s * (cardWidth s + gap s).
Proof.
  intros Hcw s'. subst s'.
  pose proof (threshold_notNegative s Hcw) as Hthr.
  destruct (not_above_zero (threshold s) (x - x)%float Hthr
              (self_difference x)) as (Habove & Hbelow & Hshort).
  assert (dragDiff (onDragStart x s) = (x - x)%float) as D by reflexivity.
  assert (dragTarget (endDragging (onDragStart x s)) = currentIndex s) as T.
  { unfold dragTarget.
    change (threshold (endDragging (onDragStart x s))) with (threshold s).
    change (dragDiff (endDragging (onDragStart x s))) with (x - x)%float.
    now rewrite Habove, Hbelow. }
  unfold onDragEnd. cbv zeta. rewrite D, Hshort, T. simpl.
  repeat split.
Qed.

Lemma tap_moves_nothing_blocks_nothing_witness :
  let s' := onDragEnd (onDragStart 512 (goToNext demoState)) in
  currentIndex s' = 1 /\ clickCapture s' = [].
Proof.
  assert (0 <= cardWidth (goToNext demoState)) as H
    by (vm_compute; discriminate).
  destruct (tap_moves_nothing_blocks_nothing (goToNext demoState) 512 H)
    as (I & C & _).
  split; [exact I|exact C].
Defined.

(** ** Clicks and resizes *)

Definition withClickCapture (l : list nat) (s : State) : State :=
  {| cardsLength := cardsLength s; cardWidth := cardWidth s; gap := gap s;
     currentIndex := currentIndex s; maxIndex := maxIndex s;
     isDragging := isDragging s; startX := startX s; currentX := currentX s;
     translateX := translateX s; classIsDragging := classIsDragging s;
     transform := transform s;
     clickCapture := l; nextClosure := nextClosure s;
     resizeTimer := resizeTimer s |}.

(** X9. A click on the track has one effect on the controller, whatever the
    number of drags before it: the suppressing listeners are gone. Index,
    offset, dimensions and drag state are as they were. *)
Theorem click_only_clears_the_suppressors (s : State) :
  fst (trackClick s) = withClickCapture [] s.
Proof.
  pose proof (dispatch_preserves
                (fun s' => withClickCapture [] s' = withClickCapture [] s)
                (fun id s' H => H) s eq_refl) as H.
  pose proof (trackClick_capture s) as C.
  destruct (fst (trackClick s)). simpl in C. subst. exact H.
Qed.

Lemma run_resizes n s :
  run s (replicate (S n) Resize) = onResize s.
Proof.
  induction n as [|n IH]; [reflexivity|].
  change (replicate (S (S n)) Resize) with (Resize :: replicate (S n) Resize).
  simpl in *. exact IH.
Qed.

(** X10. Resizes are debounced: after a burst of resize events the timer fires
    once and there is one recalculation, on the layout of that moment; a
    timer that fires with no resize pending recalculates nothing. *)
Theorem resize_burst_recalculates_once
    (n : nat) (L L' : Layout) (s : State) :
  run s (replicate (S n) Resize ++ [ResizeTimer L]) =
    calculateDimensions L (clearResizeTimer s) /\
  run s (replicate (S n) Resize ++ [ResizeTimer L; ResizeTimer L']) =
    calculateDimensions L (clearResizeTimer s) /\
  (resizeTimer s = false -> onResizeTimer L s = s).
Proof.
  assert (forall s', resizeTimer (calculateDimensions L s') = resizeTimer s')
    as Hcalc.
  { intros s'. unfold calculateDimensions.
    destruct (Nat.eqb (cardsLength s') 0); [reflexivity|].
    simpl. destruct (_ <? _); reflexivity. }
  unfold run. rewrite !fold_left_app.
  change (fold_left step (replicate (S n) Resize) s)
    with (run s (replicate (S n) Resize)).
  rewrite run_resizes. split; [reflexivity|]. split.
  - simpl. unfold onResizeTimer at 2. simpl.
    change (clearResizeTimer (onResize s)) with (clearResizeTimer s).
    unfold onResizeTimer. now rewrite Hcalc.
  - intros H. unfold onResizeTimer. now rewrite H.
Qed.

(** ** The offset, the index and the transform over whole runs *)

Lemma calculateDimensions_initial_inSync L n :
  offsetInSync (calculateDimensions L (initial n)).
Proof.
  unfold offsetInSync, calculateDimensions. simpl.
  destruct (Nat.eqb n 0); [reflexivity|]. simpl.
  destruct (Z.ltb_spec (Z.max 0 (Z.of_nat n -
              visibleCards (containerWidth L) (cardOffsetWidth L)
                (gapOf (gapParsed L)))) 0); simpl; [lia|reflexivity].
Qed.

(** X11. On a page whose dimensions are computed once, by [init], and not
    again, the offset variable is [-currentIndex * (cardWidth + gap)] after
    every button, key, drag, click and resize event. *)
Theorem offset_in_sync_until_recalculation
    (n : nat) (L : Layout) (evs : list Event) :
  Forall (fun ev => ~ isRecalculation ev) evs ->
  offsetInSync (run (calculateDimensions L (initial n)) evs).
Proof.
  intros Hevs.
  pose proof (calculateDimensions_initial_inSync L n) as H0. revert H0.
  generalize (calculateDimensions L (initial n)).
  induction Hevs as [|ev evs Hev _ IH]; intros s Hs; [exact Hs|].
  simpl. apply IH. now apply offsetInSync_step.
Qed.

Lemma offset_in_sync_until_recalculation_witness :
  let s := run demoState
             [NextButton; DragStart 500; DragMove 300; DragEnd; TrackClick;
              Resize; PrevButton] in
  translateX s = - currentIndex s * (cardWidth s + gap s).
Proof.
  apply (offset_in_sync_until_recalculation 6 demoLayout).
  repeat (apply List.Forall_cons; [now intros []|]). apply List.Forall_nil.
Defined.

(** What the track shows is the offset variable, or nothing was ever
    written and the offset is 0. *)
Definition showsOffset (s : State) : Prop :=
  (transform s = None /\ translateX s = 0) \/
  transform s = Some (numberOfInt (translateX s)).

Definition showsOffsetAtRest (s : State) : Prop :=
  isDragging s = false -> showsOffset s.

Lemma showsOffsetAtRest_navigation s :
  showsOffsetAtRest s ->
  showsOffsetAtRest (goToPrev s) /\ showsOffsetAtRest (goToNext s).
Proof.
  intros H. unfold goToPrev, goToNext.
  destruct (0 <? currentIndex s), (currentIndex s <? maxIndex s);
    split; try exact H; intros _; now right.
Qed.

Lemma showsOffsetAtRest_calculateDimensions L s :
  showsOffsetAtRest s -> showsOffsetAtRest (calculateDimensions L s).
Proof.
  intros H. unfold calculateDimensions.
  destruct (Nat.eqb (cardsLength s) 0); [exact H|]. simpl.
  destruct (_ <? _); [intros _; now right|exact H].
Qed.

Lemma showsOffsetAtRest_step s ev :
  showsOffsetAtRest s -> showsOffsetAtRest (step s ev).
Proof.
  intros H. destruct (showsOffsetAtRest_navigation s H) as [HP HN].
  destruct ev; simpl.
  - exact HP.
  - exact HN.
  - destruct (onKeydown_cases e s) as [-> | [-> | ->]];
      [exact H|exact HP|exact HN].
  - intros D. discriminate D.
  - unfold onDragMove. destruct (isDragging s) eqn:D; [|exact H].
    intros D'. simpl in D'. congruence.
  - unfold onDragEnd. destruct (isDragging s); [|exact H].
    destruct (10 <? _)%float; intros _; now right.
  - apply (dispatch_preserves showsOffsetAtRest); [|exact H]. now intros id s'.
  - exact H.
  - unfold onResizeTimer. destruct (resizeTimer s); [|exact H].
    now apply showsOffsetAtRest_calculateDimensions.
  - now apply showsOffsetAtRest_calculateDimensions.
Qed.

(** X12. Whenever no drag is under way, whatever happened before, the
    transform of the track is exactly [translateX] pixels (or no transform
    was ever written and [translateX] is 0): the offset of a finished or
    interrupted drag never stays on the screen. *)
Theorem transform_at_rest_is_translateX (n : nat) (evs : list Event) :
  let s := run (initial n) evs in
  isDragging s = false ->
  (transform s = None /\ translateX s = 0) \/
  transform s = Some (numberOfInt (translateX s)).
Proof.
  intros s. subst s.
  assert (showsOffsetAtRest (initial n)) as H0 by (intros _; now left).
  revert H0. generalize (initial n).
  induction evs as [|ev evs IH]; intros s Hs; [exact Hs|].
  simpl. apply IH. now apply showsOffsetAtRest_step.
Qed.

Lemma transform_at_rest_is_translateX_witness :
  let s := run (initial 6)
             [WindowLoad demoLayout; NextButton; DragStart 500; DragMove 480;
              DragEnd] in
  transform s = Some (numberOfInt (translateX s)).
Proof.
  intros s.
  destruct (transform_at_rest_is_translateX 6
              [WindowLoad demoLayout; NextButton; DragStart 500; DragMove 480;
               DragEnd] eq_refl) as [[N _]|T];
    [discriminate N|exact T].
Defined.

End SliderProps.




(* ===================================================================== *)
(** * Properties of the modals and of smooth scroll                       *)
(* ===================================================================== *)

Module UtilsProps.
Import Utils.

(** The element at a position has, or does not have, the marker
    [is-active]. *)
Definition activeAt (d : Document) (i : nat) : Prop :=
  exists e, elements d !! i = Some e /\ "is-active" ∈ classList e.

Definition inactiveAt (d : Document) (i : nat) : Prop :=
  forall e, elements d !! i = Some e -> "is-active" ∉ classList e.

(** No modal is active, the shared overlay of [d0] (the first [.overlay])
    is not active, and the body scrolls. *)
Definition allClosed (d0 d : Document) : Prop :=
  (forall i e, elements d !! i = Some e -> isActiveModal e = false) /\
  (forall o, querySelector (hasClass "overlay") d0 = Some o -> inactiveAt d o) /\
  bodyOverflow d = "".

Lemma hasClass_true c e : hasClass c e = true <-> c ∈ classList e.
Proof. unfold hasClass. apply bool_decide_eq_true. Qed.

Lemma hasClass_false c e : hasClass c e = false <-> c ∉ classList e.
Proof. unfold hasClass. apply bool_decide_eq_false. Qed.

Lemma classRemove_absent c e : c ∉ classList (classRemove c e).
Proof.
  simpl. intros [_ H]%elem_of_difference. apply H. now apply elem_of_singleton.
Qed.

Lemma classRemove_subset c c' e :
  c' ∉ classList e -> c' ∉ classList (classRemove c e).
Proof.
  simpl. intros H [H' _]%elem_of_difference. now apply H.
Qed.

Lemma classAdd_present c e : c ∈ classList (classAdd c e).
Proof. simpl. apply elem_of_union. left. now apply elem_of_singleton. Qed.

Lemma classAdd_superset c c' e :
  c' ∈ classList e -> c' ∈ classList (classAdd c e).
Proof. simpl. intros H. apply elem_of_union. now right. Qed.

(** What [closest] returns is an element that matches. *)
Lemma closestFrom_sound fuel sel els i j :
  closestFrom fuel sel els i = Some j ->
  exists e, els !! j = Some e /\ sel e = true.
Proof.
  revert i. induction fuel as [|fuel IH]; intros i; simpl; [discriminate|].
  destruct (els !! i) as [e|] eqn:E; [|discriminate].
  destruct (sel e) eqn:S.
  - intros [= <-]. now exists e.
  - destruct (parent e) as [p|]; [apply IH|discriminate].
Qed.

Lemma closest_sound sel d i j :
  closest sel d i = Some j ->
  exists e, elements d !! j = Some e /\ sel e = true.
Proof. apply closestFrom_sound. Qed.

(** An element that matches is its own closest match. *)
Lemma closest_self sel d i e :
  elements d !! i = Some e -> sel e = true -> closest sel d i = Some i.
Proof.
  intros E S. unfold closest.
  destruct (length (elements d)) as [|n] eqn:L.
  - apply lookup_lt_Some in E. lia.
  - simpl. now rewrite E, S.
Qed.

Lemma querySelector_Some sel d i :
  querySelector sel d = Some i <->
  exists e, elements d !! i = Some e /\ sel e = true /\
            forall j y, elements d !! j = Some y -> (j < i)%nat -> sel y <> true.
Proof.
  unfold querySelector. split.
  - destruct (list_find _ _) as [[k e]|] eqn:F; [|discriminate].
    intros [= <-]. apply list_find_Some in F. now exists e.
  - intros (e & H).
    pose proof (proj2 (list_find_Some (fun e => sel e = true)
                         (elements d) i e) H) as F.
    now rewrite F.
Qed.

(** ** Closing *)

Definition deactivate (e : Element) : Element :=
  if isActiveModal e then classRemove "is-active" e else e.

Lemma deactivate_not_modal e : isActiveModal (deactivate e) = false.
Proof.
  unfold deactivate. destruct (isActiveModal e) eqn:A; [|exact A].
  unfold isActiveModal. apply andb_false_iff. right.
  apply hasClass_false, classRemove_absent.
Qed.

Lemma deactivate_subset c e :
  c ∉ classList e -> c ∉ classList (deactivate e).
Proof.
  unfold deactivate. destruct (isActiveModal e); [|trivial].
  apply classRemove_subset.
Qed.

Lemma classRemove_not_modal e :
  isActiveModal e = false -> isActiveModal (classRemove "is-active" e) = false.
Proof.
  intros _. unfold isActiveModal. apply andb_false_iff. right.
  apply hasClass_false, classRemove_absent.
Qed.

(** The elements after [closeAllModals], one by one. *)
Lemma closeAllModals_lookup d i :
  elements (closeAllModals d) !! i =
  (fun e =>
     if decide (querySelector isActiveOverlay d = Some i)
     then classRemove "is-active" (deactivate e) else deactivate e)
    <$> elements d !! i.
Proof.
  unfold closeAllModals. simpl.
  destruct (querySelector isActiveOverlay d) as [o|] eqn:Q; simpl.
  - destruct (decide (o = i)) as [->|Hne].
    + rewrite list_lookup_alter_eq, list_lookup_fmap.
      destruct (elements d !! i); simpl; [|reflexivity].
      destruct (decide (Some i = Some i)); [reflexivity|congruence].
    + rewrite list_lookup_alter_ne by exact Hne. rewrite list_lookup_fmap.
      destruct (elements d !! i); simpl; [|reflexivity].
      destruct (decide (Some o = Some i)); [congruence|reflexivity].
  - rewrite list_lookup_fmap.
    destruct (elements d !! i); simpl; [|reflexivity].
    destruct (decide (None = Some i)); [discriminate|reflexivity].
Qed.

(** The first overlay, when it is active, is the first active overlay. *)
Lemma first_overlay_active d o e :
  querySelector (hasClass "overlay") d = Some o ->
  elements d !! o = Some e ->
  "is-active" ∈ classList e ->
  querySelector isActiveOverlay d = Some o.
Proof.
  intros Q E A. apply querySelector_Some in Q as (e' & E' & O & First).
  assert (e' = e) as -> by congruence.
  apply querySelector_Some. exists e. split; [exact E|]. split.
  - unfold isActiveOverlay. rewrite O. simpl. now apply hasClass_true.
  - intros j y Hy Hlt Hact. apply (First j y Hy Hlt).
    unfold isActiveOverlay in Hact. now apply andb_true_iff in Hact as [? _].
Qed.

Lemma closeAllModals_allClosed d : allClosed d (closeAllModals d).
Proof.
  split; [|split].
  - intros i e. rewrite closeAllModals_lookup.
    destruct (elements d !! i) as [e0|]; [|discriminate]. simpl.
    intros [= <-]. destruct (decide _).
    + apply classRemove_not_modal, deactivate_not_modal.
    + apply deactivate_not_modal.
  - intros o Q e. rewrite closeAllModals_lookup.
    destruct (elements d !! o) as [e0|] eqn:E0; [|discriminate]. simpl.
    intros [= <-]. destruct (decide _) as [_|Hno].
    + apply classRemove_absent.
    + apply deactivate_subset. intros A. apply Hno.
      now apply (first_overlay_active d o e0).
  - reflexivity.
Qed.

(** ** Opening *)

Lemma getElementById_Some id d m :
  getElementById id d = Some m ->
  exists e, elements d !! m = Some e /\ elemId e = Some id.
Proof.
  unfold getElementById. destruct (decide (id = "")); [discriminate|].
  destruct (list_find _ _) as [[k e]|] eqn:F; [|discriminate].
  intros [= <-]. apply list_find_Some in F as (E & I & _). now exists e.
Qed.

Lemma activate_lookup i d j :
  elements (updateElement (classAdd "is-active") i d) !! j =
  if decide (i = j) then classAdd "is-active" <$> elements d !! j
  else elements d !! j.
Proof.
  unfold updateElement. simpl. rewrite list_lookup_alter.
  destruct (decide (i = j)) as [->|_]; reflexivity.
Qed.

Lemma activate_activeAt i d : 
  is_Some (elements d !! i) ->
  activeAt (updateElement (classAdd "is-active") i d) i.
Proof.
  intros [e E]. exists (classAdd "is-active" e). split.
  - rewrite activate_lookup, E. now destruct (decide (i = i)).
  - apply classAdd_present.
Qed.

Lemma activate_keeps_active i d j :
  activeAt d j -> activeAt (updateElement (classAdd "is-active") i d) j.
Proof.
  intros (e & E & A). destruct (decide (i = j)) as [->|Hne].
  - apply activate_activeAt. now exists e.
  - exists e. split; [|exact A].
    rewrite activate_lookup, E. now destruct (decide (i = j)).
Qed.

(** The state of the modals a trigger click leads to, for a trigger that
    names the element [m]. *)
Definition opened (m : nat) (d : Document) : Document :=
  let d1 := updateElement (classAdd "is-active") m d in
  setBodyOverflow "hidden"
    match querySelector (hasClass "overlay") d with
    | Some o => updateElement (classAdd "is-active") o d1
    | None => d1
    end.

Lemma modalClick_trigger d target t trig id :
  closest (hasAttribute "data-modal-open") d target = Some t ->
  elements d !! t = Some trig ->
  attributes trig !! "data-modal-open" = Some id ->
  modalClick target d =
  match getElementById id d with
  | Some m => opened m d
  | None => d
  end.
Proof.
  intros C E A. unfold modalClick. rewrite C, E. simpl. rewrite A. reflexivity.
Qed.

Lemma opened_spec m d :
  is_Some (elements d !! m) ->
  activeAt (opened m d) m /\
  (forall o, querySelector (hasClass "overlay") d = Some o ->
             activeAt (opened m d) o) /\
  bodyOverflow (opened m d) = "hidden".
Proof.
  intros Hm. unfold opened.
  pose proof (activate_activeAt m d Hm) as Am.
  destruct (querySelector (hasClass "overlay") d) as [o|] eqn:Q.
  - split; [|split; [|reflexivity]].
    + now apply activate_keeps_active.
    + intros o' [= <-]. apply activate_activeAt.
      apply querySelector_Some in Q as (e & E & _).
      rewrite activate_lookup, E. destruct (decide (m = o)); now eexists.
  - split; [exact Am|]. split; [discriminate|reflexivity].
Qed.

(** ** A page with two modals *)

Definition plain (tag : string) (id : option string) (classes : list string)
    (attrs : list (string * string)) (up : option nat) : Element :=
  {| tagName := tag; elemId := id; classList := list_to_set classes;
     attributes := list_to_map attrs; parent := up;
     rectTop := 0%Q; offsetHeight := 0 |}.

(** Modal [a] is open and holds a button that is meant to close it and
    open modal [b]; a second button only closes; a third names a modal that
    does not exist. *)
Definition switchPage : Document :=
  {| elements :=
       [ plain "div" (Some "a") ["modal"; "is-active"] [] None;
         plain "button" None []
           [("data-modal-open", "b"); ("data-modal-close", "")] (Some 0%nat);
         plain "button" None [] [("data-modal-close", "")] (Some 0%nat);
         plain "div" (Some "b") ["modal"] [] None;
         plain "div" None ["overlay"; "is-active"] [] None;
         plain "button" None [] [("data-modal-open", "missing")] None ];
     bodyOverflow := "hidden" |}.

(** C4, as the code violates it. The click is on an element that carries
    [data-modal-close], and modal [a] is active; the element is also a
    [data-modal-open] trigger, so the listener takes the opening branch and
    returns: afterwards [a] is still active (with [b]), the overlay is
    active and the body does not scroll. *)
Lemma close_click_on_trigger_closes_nothing :
  hasAttribute "data-modal-close" <$> elements switchPage !! 1%nat = Some true /\
  isActiveModal <$> elements switchPage !! 0%nat = Some true /\
  isActiveModal <$> elements (modalClick 1 switchPage) !! 0%nat = Some true /\
  isActiveModal <$> elements (modalClick 1 switchPage) !! 3%nat = Some true /\
  isActiveOverlay <$> elements (modalClick 1 switchPage) !! 4%nat = Some true /\
  bodyOverflow (modalClick 1 switchPage) = "hidden".
Proof.
  vm_compute. repeat split.
Qed.

(** C4, amended. A click within a [data-modal-open] trigger that names an
    existing element activates that element and the shared overlay and sets
    the body overflow to [hidden]. A click that is not within such a
    trigger, and is within a [data-modal-close] element or directly on an
    overlay, and every Escape keydown, leave no element that is both
    [modal] and [is-active], however many there were, leave the shared
    overlay without [is-active], and empty the body overflow. *)
Theorem modal_open_and_close (d : Document) (target : nat) :
  (forall t trig id m,
      closest (hasAttribute "data-modal-open") d target = Some t ->
      elements d !! t = Some trig ->
      attributes trig !! "data-modal-open" = Some id ->
      getElementById id d = Some m ->
      let d' := modalClick target d in
      activeAt d' m /\
      (forall o, querySelector (hasClass "overlay") d = Some o ->
                 activeAt d' o) /\
      bodyOverflow d' = "hidden") /\
  (closest (hasAttribute "data-modal-open") d target = None ->
   is_Some (closest (hasAttribute "data-modal-close") d target) \/
   (exists e, elements d !! target = Some e /\ "overlay" ∈ classList e) ->
   allClosed d (modalClick target d)) /\
  allClosed d (modalKeydown "Escape" d).
Proof.
  split; [|split].
  - intros t trig id m C E A G d'. subst d'.
    rewrite (modalClick_trigger d target t trig id C E A), G.
    apply opened_spec. apply getElementById_Some in G as (e & Em & _).
    now exists e.
  - intros C Hclose. unfold modalClick. rewrite C.
    destruct Hclose as [Hc|(e & E & O)].
    + rewrite (bool_decide_eq_true_2 _ Hc). simpl.
      apply closeAllModals_allClosed.
    + rewrite E. simpl. rewrite (proj2 (hasClass_true "overlay" e) O).
      rewrite orb_true_r. apply closeAllModals_allClosed.
  - apply closeAllModals_allClosed.
Qed.

(** On the page above the plain close button closes both modals at
    once. *)
Example close_button_closes_every_modal :
  let d := modalClick 2 (modalClick 1 switchPage) in
  isActiveModal <$> elements d = [false; false; false; false; false; false] /\
  hasClass "is-active" <$> elements d !! 4%nat = Some false /\
  bodyOverflow d = "".
Proof.
  vm_compute. repeat split.
Qed.

(** C10. A click within a [data-modal-open] trigger whose value is the
    identifier of no element leaves the document as it is: no element gains
    [is-active], neither a modal nor the overlay, and the body overflow is
    not written. *)
Theorem unresolved_trigger_changes_nothing
    (d : Document) (target t : nat) (trig : Element) (id : string) :
  closest (hasAttribute "data-modal-open") d target = Some t ->
  elements d !! t = Some trig ->
  attributes trig !! "data-modal-open" = Some id ->
  getElementById id d = None ->
  modalClick target d = d.
Proof.
  intros C E A G.
  now rewrite (modalClick_trigger d target t trig id C E A), G.
Qed.

Lemma unresolved_trigger_changes_nothing_witness :
  modalClick 5 switchPage = switchPage.
Proof.
  apply (unresolved_trigger_changes_nothing switchPage 5 5
           (plain "button" None [] [("data-modal-open", "missing")] None)
           "missing");
    vm_compute; reflexivity.
Defined.

(** ** Smooth scroll *)

Lemma headerHeight_absent d :
  querySelector (hasClass "site-header") d = None -> headerHeight d = 0.
Proof. intros Q. unfold headerHeight. now rewrite Q. Qed.

Lemma headerHeight_present d i header :
  querySelector (hasClass "site-header") d = Some i ->
  elements d !! i = Some header ->
  headerHeight d = offsetHeight header.
Proof. intros Q E. unfold headerHeight. rewrite Q. simpl. now rewrite E. Qed.

Section SmoothScrollProps.

Variable select : string -> Query.
Variable scrollY : Q.

Lemma smoothScrollClick_link d target l link h :
  closest isHashLink d target = Some l ->
  elements d !! l = Some link ->
  attributes link !! "href" = Some h ->
  smoothScrollClick select scrollY target d =
  if String.eqb h "#" then []
  else match select h with
       | Matched (Some t) =>
           [PreventDefault;
            ScrollToSmooth (rectTop t + scrollY - inject_Z (headerHeight d))%Q;
            PushState h]
       | _ => []
       end.
Proof.
  intros C E A. unfold smoothScrollClick. rewrite C, E. simpl. rewrite A.
  simpl. destruct (String.eqb h "#"); [reflexivity|].
  destruct (select h) as [|[t|]]; reflexivity.
Qed.


End SmoothScrollProps.

(** A page with a sticky header of 80 pixels, a link to [#work] and the
    section it names 900 pixels below the top of the viewport. *)
Definition anchorPage : Document :=
  {| elements :=
       [ {| tagName := "header"; elemId := None;
            classList := {["site-header"]}; attributes := ∅;
            parent := None; rectTop := 0%Q; offsetHeight := 80 |};
         {| tagName := "a"; elemId := None; classList := ∅;
            attributes := {["href" := "#work"]};
            parent := Some 0%nat; rectTop := 20%Q; offsetHeight := 20 |};
         {| tagName := "section"; elemId := Some "work"; classList := ∅;
            attributes := ∅; parent := None;
            rectTop := 900%Q; offsetHeight := 600 |} ];
     bodyOverflow := "" |}.

(** The selector engine on that page, for identifier selectors. *)
Definition anchorSelect (sel : string) : Query :=
  if String.eqb sel "#work" then Matched (elements anchorPage !! 2%nat)
  else if String.prefix "#" sel then Matched None
  else SyntaxError.


(** ** What closing leaves alone *)

Lemma updateElement_lookup f i d j :
  elements (updateElement f i d) !! j =
  if decide (i = j) then f <$> elements d !! j else elements d !! j.
Proof.
  unfold updateElement. simpl. rewrite list_lookup_alter.
  destruct (decide (i = j)) as [->|_]; reflexivity.
Qed.

(** [e'] is [e] with, at most, the class [is-active] taken away. *)
Definition onlyLostActive (e e' : Element) : Prop :=
  tagName e' = tagName e /\ elemId e' = elemId e /\
  attributes e' = attributes e /\ parent e' = parent e /\
  rectTop e' = rectTop e /\ offsetHeight e' = offsetHeight e /\
  (forall c, c ∈ classList e' -> c ∈ classList e) /\
  (forall c, c ∈ classList e -> c <> "is-active" -> c ∈ classList e').

Lemma onlyLostActive_refl e : onlyLostActive e e.
Proof. repeat split; auto. Qed.

Lemma onlyLostActive_remove e e' :
  onlyLostActive e e' -> onlyLostActive e (classRemove "is-active" e').
Proof.
  intros (T & I & A & P & R & O & Sub & Sup). repeat split; try assumption.
  - simpl. intros c [Hc _]%elem_of_difference. now apply Sub.
  - simpl. intros c Hc Hne. apply elem_of_difference. split; [now apply Sup|].
    intros ->%elem_of_singleton. now apply Hne.
Qed.

Lemma onlyLostActive_deactivate e : onlyLostActive e (deactivate e).
Proof.
  unfold deactivate. destruct (isActiveModal e).
  - apply onlyLostActive_remove, onlyLostActive_refl.
  - apply onlyLostActive_refl.
Qed.

(** Position by position: an element stays where it is and loses at most
    [is-active]. *)
Lemma closeAllModals_frame d i :
  (elements d !! i = None /\ elements (closeAllModals d) !! i = None) \/
  exists e e', elements d !! i = Some e /\
               elements (closeAllModals d) !! i = Some e' /\
               onlyLostActive e e'.
Proof.
  rewrite closeAllModals_lookup.
  destruct (elements d !! i) as [e|]; [right|now left].
  eexists _, _. split; [reflexivity|]. split; [reflexivity|].
  destruct (decide _).
  - apply onlyLostActive_remove, onlyLostActive_deactivate.
  - apply onlyLostActive_deactivate.
Qed.

(** X13. [closeAllModals] keeps every element in its place and changes of an
    element nothing but its class list, from which it takes nothing but
    [is-active]: no identifier, attribute or other class is touched, no
    class is added. *)
Theorem closing_only_removes_is_active (d : Document) :
  Forall2 onlyLostActive (elements d) (elements (closeAllModals d)).
Proof.
  apply Forall2_same_length_lookup. split.
  - unfold closeAllModals. simpl.
    destruct (querySelector isActiveOverlay d); simpl;
      now rewrite ?length_alter, length_fmap.
  - intros i e e' E E'.
    destruct (closeAllModals_frame d i) as [[N _]|(e0 & e0' & E0 & E0' & H)];
      congruence.
Qed.

Lemma deactivate_id e : isActiveModal e = false -> deactivate e = e.
Proof. intros H. unfold deactivate. now rewrite H. Qed.

(** X14. With no modal and no overlay active, a close action (a close button,
    the overlay, Escape) still empties the body overflow, and does nothing
    else. *)
Theorem closing_with_nothing_open_resets_overflow (d : Document) :
  (forall e, e ∈ elements d -> isActiveModal e = false) ->
  (forall e, e ∈ elements d -> isActiveOverlay e = false) ->
  closeAllModals d = setBodyOverflow "" d.
Proof.
  intros Hm Ho. unfold closeAllModals.
  assert (querySelector isActiveOverlay d = None) as ->.
  { destruct (querySelector isActiveOverlay d) as [o|] eqn:Q; [|reflexivity].
    apply querySelector_Some in Q as (e & E & A & _).
    rewrite Ho in A; [discriminate|]. apply list_elem_of_lookup. now exists o. }
  unfold setBodyOverflow. simpl. f_equal.
  apply list_eq. intros i. rewrite list_lookup_fmap.
  destruct (elements d !! i) as [e|] eqn:E; [|reflexivity]. simpl.
  f_equal. apply deactivate_id, Hm. apply list_elem_of_lookup. now exists i.
Qed.

Lemma closing_with_nothing_open_resets_overflow_witness :
  closeAllModals anchorPage = setBodyOverflow "" anchorPage.
Proof.
  apply closing_with_nothing_open_resets_overflow;
    intros e He; unfold anchorPage in He; simpl in He;
    repeat (apply elem_of_cons in He as [->|He]; [now vm_compute|]);
    now apply elem_of_nil in He.
Defined.

(** X15. An element that is not of class [modal], and is not the first active
    overlay, keeps [is-active] through every close action: what a trigger
    opened is closed again only if it carries the class [modal], and an
    open mobile menu stays open, while the body overflow is emptied all the
    same. *)
Theorem closing_skips_what_is_not_a_modal (d : Document) (i : nat) (e : Element) :
  elements d !! i = Some e ->
  "is-active" ∈ classList e ->
  "modal" ∉ classList e ->
  querySelector isActiveOverlay d <> Some i ->
  elements (closeAllModals d) !! i = Some e /\
  bodyOverflow (closeAllModals d) = "".
Proof.
  intros E A M O. split; [|reflexivity].
  rewrite closeAllModals_lookup, E. simpl.
  destruct (decide _) as [Q|_]; [contradiction|].
  f_equal. apply deactivate_id. unfold isActiveModal.
  apply andb_false_iff. left. now apply hasClass_false.
Qed.

(** A page with an open mobile menu, locked, and an open modal. *)
Definition menuPage : Document :=
  {| elements :=
       [ plain "button" None ["nav-toggle"] [("aria-expanded", "true")] None;
         plain "nav" None ["mobile-menu"; "is-active"] [] None;
         plain "a" None [] [("href", "/work")] (Some 1%nat);
         plain "span" None [] [] (Some 2%nat);
         plain "div" (Some "a") ["modal"; "is-active"] [] None;
         plain "button" None [] [("data-modal-close", "")] (Some 4%nat);
         plain "div" None ["overlay"; "is-active"] [] None ];
     bodyOverflow := "hidden" |}.

Lemma closing_skips_what_is_not_a_modal_witness :
  hasClass "is-active" <$> elements (modalClick 5 menuPage) !! 1%nat = Some true /\
  bodyOverflow (modalClick 5 menuPage) = "".
Proof.
  destruct (closing_skips_what_is_not_a_modal menuPage 1
              (plain "nav" None ["mobile-menu"; "is-active"] [] None))
    as [E O];
    [now vm_compute|now vm_compute|now vm_compute|now vm_compute|].
  change (modalClick 5 menuPage) with (closeAllModals menuPage).
  rewrite E, O. now vm_compute.
Defined.

(** ** The mobile menu *)

(** The two elements of the controller are in the document. *)
Definition navPresent (nav : MobileNav) (d : Document) : Prop :=
  is_Some (elements d !! navToggle nav) /\ is_Some (elements d !! navMenu nav).

(** The accessibility attribute of the toggle and the scroll lock say what
    the menu is: open or closed. *)
Definition navInSync (nav : MobileNav) (d : Document) : Prop :=
  (exists tg, elements d !! navToggle nav = Some tg /\
              attributes tg !! "aria-expanded" =
                Some (boolString (menuIsActive nav d))) /\
  bodyOverflow d = (if menuIsActive nav d then "hidden" else "").

Lemma initMobileNav_present d nav :
  initMobileNav d = Some nav -> navPresent nav d.
Proof.
  unfold initMobileNav.
  destruct (querySelector (hasClass "nav-toggle") d) as [t|] eqn:T;
    [|discriminate].
  destruct (querySelector (hasClass "mobile-menu") d) as [m|] eqn:M;
    [|discriminate].
  intros [= <-].
  apply querySelector_Some in T as (et & Et & _).
  apply querySelector_Some in M as (em & Em & _).
  split; simpl; eauto.
Qed.

Lemma hasClass_setAttribute c a v e :
  hasClass c (setAttribute a v e) = hasClass c e.
Proof. reflexivity. Qed.

Lemma hasClass_classToggle c e :
  hasClass c (classToggle c e) = negb (hasClass c e).
Proof.
  unfold classToggle. destruct (hasClass c e) eqn:H; simpl.
  - apply hasClass_false, classRemove_absent.
  - apply hasClass_true, classAdd_present.
Qed.

Lemma hasClass_classRemove c e : hasClass c (classRemove c e) = false.
Proof. apply hasClass_false, classRemove_absent. Qed.

(** The menu after a class change [f] on the menu and an attribute
    written on the toggle. *)
Lemma menu_after f a v ov nav d em :
  elements d !! navMenu nav = Some em ->
  menuIsActive nav
    (setBodyOverflow ov
       (updateElement (setAttribute a v) (navToggle nav)
          (updateElement f (navMenu nav) d))) =
  hasClass "is-active" (f em).
Proof.
  intros E. unfold menuIsActive.
  change (elements (setBodyOverflow ov ?x)) with (elements x).
  rewrite !updateElement_lookup, E.
  destruct (decide (navMenu nav = navMenu nav)) as [_|H]; [|congruence].
  destruct (decide (navToggle nav = navMenu nav)); reflexivity.
Qed.

Lemma toggle_after f a v ov nav d :
  navPresent nav d ->
  exists tg,
    elements
      (setBodyOverflow ov
         (updateElement (setAttribute a v) (navToggle nav)
            (updateElement f (navMenu nav) d))) !! navToggle nav = Some tg /\
    attributes tg !! a = Some v.
Proof.
  intros [[et Et] _].
  change (elements (setBodyOverflow ov ?x)) with (elements x).
  rewrite !updateElement_lookup, Et.
  destruct (decide (navToggle nav = navToggle nav)) as [_|H]; [|congruence].
  destruct (decide (navMenu nav = navToggle nav)); simpl;
    eexists; (split; [reflexivity|]); simpl; apply lookup_insert_eq.
Qed.

Lemma navToggleClick_spec nav d :
  navPresent nav d ->
  menuIsActive nav (navToggleClick nav d) = negb (menuIsActive nav d) /\
  navInSync nav (navToggleClick nav d).
Proof.
  intros Hp. pose proof Hp as [_ [em Em]].
  assert (menuIsActive nav (navToggleClick nav d) = negb (menuIsActive nav d))
    as Hact.
  { unfold navToggleClick. cbv zeta.
    rewrite (menu_after _ _ _ _ nav d em Em), hasClass_classToggle.
    unfold menuIsActive. now rewrite Em. }
  split; [exact Hact|]. split.
  - rewrite Hact. unfold navToggleClick. cbv zeta.
    now apply toggle_after.
  - rewrite Hact. unfold navToggleClick. simpl.
    now destruct (menuIsActive nav d).
Qed.

Lemma navClose_spec nav d :
  navPresent nav d ->
  menuIsActive nav (navClose nav d) = false /\ navInSync nav (navClose nav d).
Proof.
  intros Hp. pose proof Hp as [_ [em Em]].
  assert (menuIsActive nav (navClose nav d) = false) as Hact.
  { unfold navClose. cbv zeta.
    rewrite (menu_after _ _ _ _ nav d em Em). apply hasClass_classRemove. }
  split; [exact Hact|]. split.
  - rewrite Hact. unfold navClose. cbv zeta. now apply toggle_after.
  - now rewrite Hact.
Qed.

Lemma updateElement_present f i nav d :
  navPresent nav d -> navPresent nav (updateElement f i d).
Proof.
  intros [[et Et] [em Em]]. unfold navPresent.
  rewrite !updateElement_lookup, Et, Em.
  split; [destruct (decide (i = navToggle nav))|destruct (decide (i = navMenu nav))];
    simpl; eauto.
Qed.

(** ** The menu and its toggle under every listener of the file *)

(** [e'] is [e] but, at most, for the class [is-active] and the attribute
    [aria-expanded]. *)
Definition framed (e e' : Element) : Prop :=
  tagName e' = tagName e /\ elemId e' = elemId e /\ parent e' = parent e /\
  (forall a, a <> "aria-expanded" -> attributes e' !! a = attributes e !! a) /\
  (forall c, c <> "is-active" -> c ∈ classList e' <-> c ∈ classList e).

(** Position by position, the elements of [d'] are those of [d] but for
    that class and that attribute. *)
Definition Frame (d d' : Document) : Prop :=
  forall i,
    match elements d !! i, elements d' !! i with
    | Some e, Some e' => framed e e'
    | None, None => True
    | _, _ => False
    end.

Lemma framed_refl e : framed e e.
Proof. do 4 (split; [reflexivity|]). now intros c Hc. Qed.

Lemma framed_trans e1 e2 e3 : framed e1 e2 -> framed e2 e3 -> framed e1 e3.
Proof.
  intros (T & I & P & A & C) (T' & I' & P' & A' & C').
  split; [congruence|]. split; [congruence|]. split; [congruence|]. split.
  - intros a Ha. now rewrite A', A.
  - intros c Hc. now rewrite C', C.
Qed.

Lemma Frame_refl d : Frame d d.
Proof.
  intros i. destruct (elements d !! i); [apply framed_refl|exact I].
Qed.

Lemma Frame_trans d1 d2 d3 : Frame d1 d2 -> Frame d2 d3 -> Frame d1 d3.
Proof.
  intros H12 H23 i. specialize (H12 i). specialize (H23 i).
  destruct (elements d1 !! i), (elements d2 !! i), (elements d3 !! i);
    try contradiction; try exact I.
  now apply (framed_trans _ e0).
Qed.

Lemma framed_classAdd e : framed e (classAdd "is-active" e).
Proof.
  do 4 (split; [reflexivity|]). intros c Hc. simpl. split.
  - intros [Hx%elem_of_singleton|Hx]%elem_of_union; [congruence|exact Hx].
  - intros Hx. apply elem_of_union. now right.
Qed.

Lemma framed_classRemove e : framed e (classRemove "is-active" e).
Proof.
  do 4 (split; [reflexivity|]). intros c Hc. simpl. split.
  - now intros [Hx _]%elem_of_difference.
  - intros Hx. apply elem_of_difference. split; [exact Hx|].
    intros Hx'%elem_of_singleton. congruence.
Qed.

Lemma framed_classToggle e : framed e (classToggle "is-active" e).
Proof.
  unfold classToggle. destruct (hasClass "is-active" e);
    [apply framed_classRemove|apply framed_classAdd].
Qed.

Lemma framed_setAttribute v e : framed e (setAttribute "aria-expanded" v e).
Proof.
  do 3 (split; [reflexivity|]). split; [|now intros c Hc].
  intros a Ha. simpl. apply lookup_insert_ne. congruence.
Qed.

Lemma Frame_updateElement f i d :
  (forall e, framed e (f e)) -> Frame d (updateElement f i d).
Proof.
  intros Hf j. rewrite updateElement_lookup.
  destruct (elements d !! j) as [e|]; destruct (decide (i = j)); simpl;
    auto using framed_refl.
Qed.

Lemma Frame_setBodyOverflow v d d' :
  Frame d d' -> Frame d (setBodyOverflow v d').
Proof. intros H. exact H. Qed.

Lemma Frame_navToggleClick nav d : Frame d (navToggleClick nav d).
Proof.
  unfold navToggleClick. apply Frame_setBodyOverflow.
  eapply Frame_trans; apply Frame_updateElement;
    [apply framed_classToggle|apply framed_setAttribute].
Qed.

Lemma Frame_navClose nav d : Frame d (navClose nav d).
Proof.
  unfold navClose. apply Frame_setBodyOverflow.
  eapply Frame_trans; apply Frame_updateElement;
    [apply framed_classRemove|apply framed_setAttribute].
Qed.

Lemma Frame_navListenersAt nav target i d :
  Frame d (navListenersAt nav target i d).
Proof.
  unfold navListenersAt.
  assert (Frame d (if decide (i = navToggle nav)
                   then navToggleClick nav d else d)) as H1.
  { destruct (decide _); [apply Frame_navToggleClick|apply Frame_refl]. }
  destruct (decide (i = navMenu nav)); [|exact H1].
  apply (Frame_trans _ _ _ H1). unfold navMenuClick.
  destruct (default _ _); [apply Frame_navClose|apply Frame_refl].
Qed.

Lemma Frame_navKeydown nav k d : Frame d (navKeydown nav k d).
Proof.
  unfold navKeydown. destruct (_ && _); [apply Frame_navClose|apply Frame_refl].
Qed.

Lemma onlyLostActive_framed e e' : onlyLostActive e e' -> framed e e'.
Proof.
  intros (T & I & A & P & _ & _ & Sub & Sup).
  split; [exact T|]. split; [exact I|]. split; [exact P|]. split.
  - intros a _. now rewrite A.
  - intros c Hc. split; [apply Sub|intros H; now apply Sup].
Qed.

Lemma Frame_closeAllModals d : Frame d (closeAllModals d).
Proof.
  intros i.
  destruct (closeAllModals_frame d i) as [[-> ->]|(e & e' & -> & -> & H)];
    [exact I|now apply onlyLostActive_framed].
Qed.

Lemma Frame_modalClick target d : Frame d (modalClick target d).
Proof.
  unfold modalClick.
  destruct (closest (hasAttribute "data-modal-open") d target).
  - destruct (getElementById _ d); [|apply Frame_refl].
    apply Frame_setBodyOverflow.
    destruct (querySelector (hasClass "overlay") d).
    + eapply Frame_trans; apply Frame_updateElement; apply framed_classAdd.
    + apply Frame_updateElement, framed_classAdd.
  - destruct (_ || _); [apply Frame_closeAllModals|apply Frame_refl].
Qed.

(** The menu is an element of its own: not a modal, not an overlay, and
    named by no [data-modal-open] trigger. *)
Definition menuPlain (nav : MobileNav) (d : Document) : Prop :=
  exists em,
    elements d !! navMenu nav = Some em /\
    ("modal" ∉ classList em) /\ ("overlay" ∉ classList em) /\
    forall i e id,
      elements d !! i = Some e ->
      attributes e !! "data-modal-open" = Some id ->
      elemId em <> Some id.

Lemma Frame_navPresent nav d d' :
  Frame d d' -> navPresent nav d -> navPresent nav d'.
Proof.
  intros H [[et Et] [em Em]].
  pose proof (H (navToggle nav)) as Ht. pose proof (H (navMenu nav)) as Hm.
  rewrite Et in Ht. rewrite Em in Hm.
  split.
  - destruct (elements d' !! navToggle nav); [eauto|contradiction].
  - destruct (elements d' !! navMenu nav); [eauto|contradiction].
Qed.

Lemma Frame_menuPlain nav d d' :
  Frame d d' -> menuPlain nav d -> menuPlain nav d'.
Proof.
  intros H (em & Em & Hmodal & Hoverlay & Hid).
  pose proof (H (navMenu nav)) as Hm. rewrite Em in Hm.
  destruct (elements d' !! navMenu nav) as [em'|] eqn:Em'; [|contradiction].
  destruct Hm as (_ & I & _ & _ & C).
  exists em'. split; [exact Em'|]. split; [|split].
  - intros Hc. apply Hmodal. now apply C.
  - intros Hc. apply Hoverlay. now apply C.
  - intros i e' id E' A'. rewrite I.
    pose proof (H i) as Hi. rewrite E' in Hi.
    destruct (elements d !! i) as [e|] eqn:E; [|contradiction].
    destruct Hi as (_ & _ & _ & A & _).
    apply (Hid i e id E). now rewrite <- A.
Qed.

(** The accessibility attribute of the toggle says what the menu is. *)
Definition ariaInSync (nav : MobileNav) (d : Document) : Prop :=
  exists tg, elements d !! navToggle nav = Some tg /\
             attributes tg !! "aria-expanded" =
               Some (boolString (menuIsActive nav d)).

Lemma ariaInSync_navListenersAt nav target i d :
  navPresent nav d ->
  ariaInSync nav d \/ i = navToggle nav ->
  ariaInSync nav (navListenersAt nav target i d).
Proof.
  intros Hp Hs. unfold navListenersAt.
  set (d1 := if decide (i = navToggle nav) then navToggleClick nav d else d).
  assert (navPresent nav d1) as Hp1.
  { subst d1. destruct (decide _); [|exact Hp].
    exact (Frame_navPresent _ _ _ (Frame_navToggleClick nav d) Hp). }
  assert (ariaInSync nav d1) as Hs1.
  { subst d1. destruct (decide (i = navToggle nav)) as [_|Hne].
    - now apply navToggleClick_spec.
    - destruct Hs as [Hs|Hs]; [exact Hs|contradiction]. }
  destruct (decide (i = navMenu nav)); [|exact Hs1].
  unfold navMenuClick. destruct (default _ _); [|exact Hs1].
  now apply navClose_spec.
Qed.

Lemma ariaInSync_bubble nav target path d :
  navPresent nav d ->
  ariaInSync nav d \/ navToggle nav ∈ path ->
  ariaInSync nav
    (fold_left (fun d' i => navListenersAt nav target i d') path d).
Proof.
  revert d. induction path as [|i path IH]; intros d Hp Hs; simpl.
  - destruct Hs as [Hs|Hs]; [exact Hs|]. now apply elem_of_nil in Hs.
  - apply IH.
    + exact (Frame_navPresent _ _ _ (Frame_navListenersAt nav target i d) Hp).
    + destruct Hs as [Hs|[Heq|Hs]%elem_of_cons].
      * left. apply ariaInSync_navListenersAt; [exact Hp|now left].
      * left. apply ariaInSync_navListenersAt; [exact Hp|now right].
      * now right.
Qed.

Lemma Frame_bubble nav target path d :
  Frame d (fold_left (fun d' i => navListenersAt nav target i d') path d).
Proof.
  revert d. induction path as [|i path IH]; intros d; [apply Frame_refl|].
  simpl. eapply Frame_trans; [apply Frame_navListenersAt|apply IH].
Qed.

(** The listeners of the modals write no attribute. *)
Lemma closeAllModals_attributes d i :
  attributes <$> elements (closeAllModals d) !! i =
  attributes <$> elements d !! i.
Proof.
  destruct (closeAllModals_frame d i) as [[-> ->]|(e & e' & -> & -> & H)];
    [reflexivity|].
  simpl. f_equal. apply H.
Qed.

Lemma activate_attributes m d i :
  attributes <$> elements (updateElement (classAdd "is-active") m d) !! i =
  attributes <$> elements d !! i.
Proof.
  rewrite activate_lookup. destruct (decide (m = i)); [|reflexivity].
  now destruct (elements d !! i).
Qed.

Lemma modalClick_attributes target d i :
  attributes <$> elements (modalClick target d) !! i =
  attributes <$> elements d !! i.
Proof.
  unfold modalClick.
  destruct (closest (hasAttribute "data-modal-open") d target).
  - destruct (getElementById _ d); [|reflexivity].
    change (elements (setBodyOverflow "hidden" ?x)) with (elements x).
    destruct (querySelector (hasClass "overlay") d);
      now rewrite ?activate_attributes.
  - destruct (_ || _); [apply closeAllModals_attributes|reflexivity].
Qed.

(** On a menu that is an element of its own they write nothing at all. *)
Lemma closeAllModals_menu nav d :
  menuPlain nav d ->
  elements (closeAllModals d) !! navMenu nav = elements d !! navMenu nav.
Proof.
  intros (em & Em & Hmodal & Hoverlay & _).
  rewrite closeAllModals_lookup, Em. simpl. f_equal.
  destruct (decide _) as [Q|_].
  - exfalso. apply querySelector_Some in Q as (e & E & A & _).
    assert (e = em) as -> by congruence.
    unfold isActiveOverlay in A. apply andb_true_iff in A as [A _].
    now apply hasClass_true in A.
  - apply deactivate_id. unfold isActiveModal.
    apply andb_false_iff. left. now apply hasClass_false.
Qed.

Lemma modalClick_menu nav target d :
  menuPlain nav d ->
  elements (modalClick target d) !! navMenu nav = elements d !! navMenu nav.
Proof.
  intros Hplain. pose proof Hplain as (em & Em & Hmodal & Hoverlay & Hid).
  destruct (closest (hasAttribute "data-modal-open") d target) as [t|] eqn:C.
  - destruct (closest_sound _ _ _ _ C) as (trig & E & Hattr).
    apply bool_decide_eq_true in Hattr as [id A].
    rewrite (modalClick_trigger d target t trig id C E A).
    destruct (getElementById id d) as [m|] eqn:G; [|reflexivity].
    apply getElementById_Some in G as (e & Ee & Ie).
    assert (m <> navMenu nav) as Hm.
    { intros ->. assert (e = em) as -> by congruence.
      now apply (Hid t trig id E A). }
    unfold opened.
    change (elements (setBodyOverflow "hidden" ?x)) with (elements x).
    destruct (querySelector (hasClass "overlay") d) as [o|] eqn:Q.
    + assert (o <> navMenu nav) as Ho.
      { intros ->. apply querySelector_Some in Q as (e' & E' & O & _).
        assert (e' = em) as -> by congruence.
        now apply hasClass_true in O. }
      rewrite !activate_lookup.
      destruct (decide (o = navMenu nav)); [contradiction|].
      now destruct (decide (m = navMenu nav)).
    + rewrite activate_lookup. now destruct (decide (m = navMenu nav)).
  - unfold modalClick. rewrite C.
    destruct (_ || _); [now apply closeAllModals_menu|reflexivity].
Qed.

Lemma ariaInSync_unchanged nav d d' :
  elements d' !! navMenu nav = elements d !! navMenu nav ->
  attributes <$> elements d' !! navToggle nav =
    attributes <$> elements d !! navToggle nav ->
  ariaInSync nav d -> ariaInSync nav d'.
Proof.
  intros Hm Ht (tg & Etg & A). rewrite Etg in Ht.
  destruct (elements d' !! navToggle nav) as [tg'|] eqn:Etg'; [|discriminate].
  injection Ht as Ht. exists tg'. split; [exact Etg'|].
  rewrite Ht, A. unfold menuIsActive. now rewrite Hm.
Qed.

Lemma ariaInSync_modalClick nav target d :
  menuPlain nav d -> ariaInSync nav d -> ariaInSync nav (modalClick target d).
Proof.
  intros Hplain. apply ariaInSync_unchanged;
    [now apply modalClick_menu|apply modalClick_attributes].
Qed.

(** What every event keeps: the two elements are there, and the menu is
    an element of its own. *)
Definition navSound (nav : MobileNav) (d : Document) : Prop :=
  navPresent nav d /\ menuPlain nav d.

Lemma Frame_navSound nav d d' : Frame d d' -> navSound nav d -> navSound nav d'.
Proof.
  intros H [Hp Hm]. split;
    [now apply (Frame_navPresent nav d)|now apply (Frame_menuPlain nav d)].
Qed.

Lemma Frame_pageStep nav d ev : Frame d (pageStep (Some nav) d ev).
Proof.
  destruct ev as [target|k]; simpl.
  - unfold pageClick.
    eapply Frame_trans; [apply Frame_bubble|apply Frame_modalClick].
  - unfold documentKeydown. eapply Frame_trans; [apply Frame_navKeydown|].
    unfold modalKeydown.
    destruct (String.eqb k "Escape"); [apply Frame_closeAllModals|apply Frame_refl].
Qed.

Lemma ariaInSync_pageClick nav target d :
  navSound nav d ->
  ariaInSync nav d \/ navToggle nav ∈ bubblePath d target ->
  ariaInSync nav (pageClick (Some nav) target d).
Proof.
  intros [Hp Hplain] Hs. unfold pageClick.
  apply ariaInSync_modalClick.
  - exact (Frame_menuPlain _ _ _ (Frame_bubble nav target _ d) Hplain).
  - now apply ariaInSync_bubble.
Qed.

Lemma ariaInSync_pageStep nav d ev :
  navSound nav d -> ariaInSync nav d ->
  ariaInSync nav (pageStep (Some nav) d ev).
Proof.
  intros Hsound Hs. destruct ev as [target|k]; simpl.
  - apply ariaInSync_pageClick; [exact Hsound|now left].
  - destruct Hsound as [Hp Hplain]. unfold documentKeydown.
    assert (ariaInSync nav (navKeydown nav k d)) as Hs1.
    { unfold navKeydown. destruct (_ && _); [|exact Hs].
      now apply navClose_spec. }
    pose proof (Frame_menuPlain _ _ _ (Frame_navKeydown nav k d) Hplain)
      as Hplain1.
    unfold modalKeydown. destruct (String.eqb k "Escape"); [|exact Hs1].
    revert Hs1. apply ariaInSync_unchanged;
      [now apply closeAllModals_menu|apply closeAllModals_attributes].
Qed.

(** X16. On a page that has both the toggle and the menu, with the menu
    an element of its own (not of class [modal] or [overlay], its identifier
    named by no [data-modal-open] trigger), the click listener of the toggle
    turns an open menu into a closed one and a closed one into an open one;
    and after a click on the toggle or inside it, through every later click
    and keydown anywhere on the page, each handled by all the listeners of
    the file it reaches (those of the toggle and of the menu as the click
    bubbles, then those of the modals), the [aria-expanded] attribute of the
    toggle says what the menu is: ["true"] while the menu has [is-active],
    ["false"] while it has not. *)
Theorem mobile_menu_stays_in_sync
    (d : Document) (nav : MobileNav) (target : nat) (evs : list PageEvent) :
  initMobileNav d = Some nav ->
  menuPlain nav d ->
  navToggle nav ∈ bubblePath d target ->
  menuIsActive nav (navToggleClick nav d) = negb (menuIsActive nav d) /\
  ariaInSync nav
    (fold_left (pageStep (Some nav)) evs (pageClick (Some nav) target d)).
Proof.
  intros Hinit Hplain Hpath.
  pose proof (initMobileNav_present d nav Hinit) as Hp.
  split; [now apply navToggleClick_spec|].
  assert (navSound nav d) as Hsound by now split.
  assert (ariaInSync nav (pageClick (Some nav) target d)) as Hs
    by (apply ariaInSync_pageClick; [exact Hsound|now right]).
  assert (navSound nav (pageClick (Some nav) target d)) as Hsound'
    by exact (Frame_navSound _ _ _
                (Frame_pageStep nav d (Click target)) Hsound).
  revert Hsound' Hs. generalize (pageClick (Some nav) target d).
  induction evs as [|ev evs IH]; intros d' Hsound' Hs'; [exact Hs'|].
  simpl. apply IH.
  - exact (Frame_navSound _ _ _ (Frame_pageStep nav d' ev) Hsound').
  - now apply ariaInSync_pageStep.
Qed.

(** A page with a closed menu whose toggle has no [aria-expanded]
    attribute yet; in the menu, a link that is also the trigger of a modal
    and a button that closes modals. *)
Definition stalePage : Document :=
  {| elements :=
       [ plain "button" None ["nav-toggle"] [] None;
         plain "nav" (Some "menu") ["mobile-menu"] [] None;
         plain "a" None [] [("href", "#"); ("data-modal-open", "a")]
           (Some 1%nat);
         plain "button" None [] [("data-modal-close", "")] (Some 1%nat);
         plain "span" None [] [] (Some 0%nat);
         plain "div" (Some "a") ["modal"] [] None;
         plain "div" None ["overlay"] [] None ];
     bodyOverflow := "" |}.

Lemma stalePage_menuPlain :
  menuPlain {| navToggle := 0; navMenu := 1 |} stalePage.
Proof.
  eexists. split; [reflexivity|]. split; [now vm_compute|].
  split; [now vm_compute|].
  intros i e id E A.
  do 7 (destruct i as [|i];
        [injection E as <-; vm_compute in A; try discriminate A;
         injection A as <-; discriminate|]).
  discriminate E.
Qed.

Lemma mobile_menu_stays_in_sync_witness :
  let nav := {| navToggle := 0; navMenu := 1 |} in
  ariaInSync nav
    (fold_left (pageStep (Some nav))
       [Click 2; Click 0; Click 3; Keydown "Escape"; Click 6]
       (pageClick (Some nav) 4 stalePage)).
Proof.
  intros nav.
  refine (proj2 (mobile_menu_stays_in_sync stalePage nav 4 _ _ _ _)).
  - now vm_compute.
  - exact stalePage_menuPlain.
  - vm_compute. do 2 constructor.
Defined.

(** On that page the scroll lock does not follow the menu: the menu is
    opened by its toggle, then the trigger link inside it closes the menu
    and opens the modal, which locks the body again, and the close button
    inside the reopened menu unlocks the body while the menu stays open. *)
Example scroll_lock_follows_the_last_writer :
  let nav := {| navToggle := 0; navMenu := 1 |} in
  let d1 := pageClick (Some nav) 2 (pageClick (Some nav) 4 stalePage) in
  let d2 := pageClick (Some nav) 3 (pageClick (Some nav) 0 d1) in
  (menuIsActive nav d1 = false /\ bodyOverflow d1 = "hidden") /\
  (menuIsActive nav d2 = true /\ bodyOverflow d2 = "").
Proof. vm_compute. repeat split. Qed.

(** ** Escape *)

Lemma closeAllModals_keeps_inactive d i :
  default false (hasClass "is-active" <$> elements d !! i) = false ->
  default false (hasClass "is-active" <$> elements (closeAllModals d) !! i)
    = false.
Proof.
  rewrite closeAllModals_lookup.
  destruct (elements d !! i) as [e|]; [|reflexivity]. simpl.
  intros H%hasClass_false. apply hasClass_false.
  destruct (decide _).
  - apply classRemove_absent.
  - now apply deactivate_subset.
Qed.

(** X17. One press of Escape closes whatever is open: after the two keydown
    listeners of the document have run, the mobile menu (when the page has
    one) is closed, no element is both [modal] and [is-active], the shared
    overlay is not active and the body overflow is empty. *)
Theorem escape_closes_menu_and_modals (d : Document) (nav : option MobileNav) :
  (forall n, nav = Some n -> navPresent n d) ->
  let d' := documentKeydown nav "Escape" d in
  (forall n, nav = Some n -> menuIsActive n d' = false) /\
  (forall i e, elements d' !! i = Some e -> isActiveModal e = false) /\
  (forall o, querySelector (hasClass "overlay") d' = Some o -> inactiveAt d' o) /\
  bodyOverflow d' = "".
Proof.
  intros Hnav d'. subst d'. unfold documentKeydown.
  change (modalKeydown "Escape" ?x) with (closeAllModals x).
  split; [|split; [|split]].
  - intros n ->. pose proof (Hnav n eq_refl) as Hp.
    unfold menuIsActive. apply closeAllModals_keeps_inactive.
    fold (menuIsActive n (navKeydown n "Escape" d)).
    unfold navKeydown. simpl.
    destruct (menuIsActive n d) eqn:A; [|exact A].
    now apply navClose_spec.
  - apply closeAllModals_allClosed.
  - intros o Q. 
    match goal with |- inactiveAt (closeAllModals ?x) o =>
      pose proof (closeAllModals_allClosed x) as (_ & Hov & _);
      pose proof (closeAllModals_frame x) as Hframe
    end.
    apply Hov. apply querySelector_Some in Q as (e' & E' & C' & First').
    apply querySelector_Some.
    destruct (Hframe o) as [[_ N]|(e & e1 & E & E1 & He)]; [congruence|].
    assert (e1 = e') as -> by congruence.
    exists e. split; [exact E|]. split.
    + apply hasClass_true. apply He. now apply hasClass_true.
    + intros j y Ey Hlt Cy.
      destruct (Hframe j) as [[N _]|(y0 & y' & Ey0 & Ey' & Hy)]; [congruence|].
      assert (y0 = y) as -> by congruence.
      apply (First' j y' Ey' Hlt). apply hasClass_true.
      apply Hy; [now apply hasClass_true|discriminate].
  - reflexivity.
Qed.

Lemma escape_closes_menu_and_modals_witness :
  let nav := {| navToggle := 0; navMenu := 1 |} in
  let d' := documentKeydown (Some nav) "Escape" menuPage in
  menuIsActive nav d' = false /\ bodyOverflow d' = "".
Proof.
  intros nav d'.
  destruct (escape_closes_menu_and_modals menuPage (Some nav))
    as (M & _ & _ & O).
  { intros n [= <-]. apply (initMobileNav_present menuPage). now vm_compute. }
  split; [now apply M|exact O].
Defined.

(** ** What a trigger click never does *)

Lemma opened_keeps_active m d j : activeAt d j -> activeAt (opened m d) j.
Proof.
  intros A. unfold opened.
  change (activeAt (setBodyOverflow "hidden" ?x) j) with (activeAt x j).
  destruct (querySelector (hasClass "overlay") d);
    repeat apply activate_keeps_active; exact A.
Qed.

(** X18. Opening is additive: a click within a [data-modal-open] trigger never
    takes [is-active] from any element, so a modal that is open stays open
    when another one is opened over it. *)
Theorem trigger_click_closes_nothing (d : Document) (target t j : nat) :
  closest (hasAttribute "data-modal-open") d target = Some t ->
  activeAt d j ->
  activeAt (modalClick target d) j.
Proof.
  intros C A.
  destruct (closest_sound _ _ _ _ C) as (trig & E & Hattr).
  apply bool_decide_eq_true in Hattr as [id Hid].
  rewrite (modalClick_trigger d target t trig id C E Hid).
  destruct (getElementById id d); [now apply opened_keeps_active|exact A].
Qed.

Lemma trigger_click_closes_nothing_witness :
  activeAt (modalClick 1 switchPage) 0 /\ activeAt (modalClick 1 switchPage) 3.
Proof.
  split.
  - apply (trigger_click_closes_nothing switchPage 1 1 0); [now vm_compute|].
    eexists. split; [reflexivity|now vm_compute].
  - eexists. split; [reflexivity|now vm_compute].
Defined.

(** ** Smooth scroll, all or nothing *)


End UtilsProps.




(* ===================================================================== *)
(** * Properties of the page transition                                   *)
(* ===================================================================== *)

Module TransitionProps.
Import Transition.

(** The classes of the body and of the overlay, and the timers, are those
    of [s]. *)
Definition sameMarkers (s s' : State) : Prop :=
  bodyClasses s' = bodyClasses s /\
  overlayClasses s' = overlayClasses s /\
  timers s' = timers s.

(** With reduced motion the entrance adds the interference lines and
    nothing else. *)
Lemma init_reduced random s :
  prefersReducedMotion s = true -> sameMarkers s (init random s).
Proof.
  intros H. unfold init. simpl. rewrite H. simpl.
  unfold sameMarkers, overlayClasses. simpl.
  destruct (transition s) as [[cl ch]|]; repeat split.
Qed.

(** With reduced motion [navigateTo] assigns the address at once, and sets
    no timer. *)
Lemma navigateTo_reduced url s :
  prefersReducedMotion s = true ->
  assigned (navigateTo url s) = Some url /\ sameMarkers s (navigateTo url s).
Proof.
  intros H. unfold navigateTo. rewrite H. repeat split.
Qed.

Lemma onClick_reduced e s :
  prefersReducedMotion s = true ->
  sameMarkers s (fst (onClick e s)) /\
  (snd (onClick e s) = true ->
   exists link, closestLink e = Some link /\
                assigned (fst (onClick e s)) = Some (linkHref link)).
Proof.
  intros H. unfold onClick.
  destruct (closestLink e) as [link|];
    [|split; [repeat split|discriminate]].
  repeat match goal with
         | |- context [if ?b then (s, false) else _] =>
             destruct b; [split; [repeat split|discriminate]|]
         end.
  simpl. destruct (navigateTo_reduced (linkHref link) s H) as [A M].
  split; [exact M|]. intros _. now exists link.
Qed.

Lemma fireTimer_none i s : timers s = [] -> fireTimer i s = s.
Proof. intros H. unfold fireTimer. now rewrite H. Qed.

Lemma step_prefersReducedMotion s o :
  prefersReducedMotion (step s o) = prefersReducedMotion s.
Proof.
  destruct o as [random|e| |i]; simpl.
  - unfold init. simpl.
    destruct (prefersReducedMotion s) eqn:E; simpl; now rewrite ?E.
  - unfold onClick. destruct (closestLink e) as [link|]; [|reflexivity].
    repeat match goal with
           | |- context [if ?b then (s, false) else _] =>
               destruct b; [reflexivity|]
           end.
    simpl. unfold navigateTo.
    destruct (prefersReducedMotion s) eqn:E; simpl; now rewrite ?E.
  - reflexivity.
  - unfold fireTimer. destruct (timers s !! i) as [[delay cb]|]; [|reflexivity].
    destruct cb; reflexivity.
Qed.

(** With reduced motion, and no timer set, every operation but the
    [popstate] listener leaves the classes of the body and of the overlay
    alone and sets no timer. *)
Lemma reduced_motion_respected_but_by_popstate s ops :
  prefersReducedMotion s = true ->
  timers s = [] ->
  Forall (fun o => o <> PopState) ops ->
  sameMarkers s (fold_left step ops s).
Proof.
  intros R T Hops. revert s R T.
  induction Hops as [|o ops Ho _ IH]; intros s R T; [repeat split|].
  simpl.
  assert (sameMarkers s (step s o)) as (B & O & T').
  { destruct o as [random|e| |i]; simpl.
    - now apply init_reduced.
    - now apply onClick_reduced.
    - contradiction.
    - rewrite fireTimer_none by exact T. repeat split. }
  destruct (IH (step s o)) as (B' & O' & T'').
  - now rewrite step_prefersReducedMotion.
  - now rewrite T'.
  - unfold sameMarkers. now rewrite B', O', T''.
Qed.

(** A page whose visitor asks for reduced motion, at rest. *)
Definition reducedPage : State :=
  {| prefersReducedMotion := true;
     transition := Some (∅, []);
     bodyClasses := ∅;
     location := {| href := "https://example.org/"; hostname := "example.org";
                    pathname := "/" |};
     assigned := None;
     timers := [] |}.

(** C5, at the failing input. The visitor asks for reduced motion and goes
    back in the history of the page: the [popstate] listener, which does not
    look at the preference, puts [is-glitching] on the body and
    [glitch-active] on the overlay, and sets no timer that would take them
    off again. The entrance and a navigation by link on the same page add no
    marker. *)
Theorem popstate_ignores_reduced_motion :
  prefersReducedMotion reducedPage = true /\
  bodyClasses reducedPage ∩ markers = ∅ /\
  overlayClasses reducedPage ∩ markers = ∅ /\
  bodyClasses (onPopState reducedPage) = {["is-glitching"]} /\
  overlayClasses (onPopState reducedPage) = {["glitch-active"]} /\
  timers (onPopState reducedPage) = [] /\
  (forall random, sameMarkers reducedPage (init random reducedPage)) /\
  (forall url, sameMarkers reducedPage (navigateTo url reducedPage) /\
               assigned (navigateTo url reducedPage) = Some url).
Proof.
  split; [reflexivity|]. split; [now vm_compute|]. split; [now vm_compute|].
  split; [now vm_compute|]. split; [now vm_compute|]. split; [reflexivity|].
  split.
  - intros random. now apply init_reduced.
  - intros url. destruct (navigateTo_reduced url reducedPage eq_refl). now split.
Qed.

(** ** The entrance, played to its end *)

Lemma add_then_remove (c : string) (X : gset string) :
  c ∉ X -> ({[c]} ∪ X) ∖ {[c]} = X.
Proof.
  intros H. apply set_eq. intros x.
  rewrite elem_of_difference, elem_of_union, !elem_of_singleton.
  split.
  - intros [[->|Hx] Hne]; [now contradiction Hne|exact Hx].
  - intros Hx. split; [now right|]. intros ->. now apply H.
Qed.

(** X20. Without reduced motion, on a page at rest, [init] marks the body and
    sets the timers of 50 and 500 milliseconds; the first puts
    [glitch-active] on the overlay, the second swaps it for [glitch-exit]
    and sets the timer of 400 milliseconds, and when that one has fired the
    classes of the body and of the overlay are exactly what they were before
    [init] and no timer is left. *)
Theorem entrance_clears_every_marker (random : nat -> Q) (s : State) :
  prefersReducedMotion s = false ->
  timers s = [] ->
  "is-glitching" ∉ bodyClasses s ->
  "glitch-active" ∉ overlayClasses s ->
  "glitch-exit" ∉ overlayClasses s ->
  let s0 := init random s in
  let s1 := fireTimer 0 s0 in
  let s2 := fireTimer 0 s1 in
  let s3 := fireTimer 0 s2 in
  timers s0 = [(50, ShowOverlay); (500, StartExit)] /\
  "is-glitching" ∈ bodyClasses s0 /\
  (is_Some (transition s) -> "glitch-active" ∈ overlayClasses s1) /\
  timers s2 = [(400, CleanUp)] /\
  (is_Some (transition s) ->
     "glitch-exit" ∈ overlayClasses s2 /\ "glitch-active" ∉ overlayClasses s2) /\
  bodyClasses s3 = bodyClasses s /\
  overlayClasses s3 = overlayClasses s /\
  timers s3 = [].
Proof.
  destruct s as [r tr bc loc asg tm]. simpl. intros -> -> Hb Ha He.
  unfold init, fireTimer, overlayClasses in *. simpl in *.
  split; [reflexivity|]. split.
  { apply elem_of_union. left. now apply elem_of_singleton. }
  destruct tr as [[cl ch]|]; simpl.
  - split.
    { intros _. apply elem_of_union. left. now apply elem_of_singleton. }
    split; [reflexivity|]. split.
    { intros _. split.
      - apply elem_of_union. left. now apply elem_of_singleton.
      - rewrite (add_then_remove _ _ Ha). intros [H|H]%elem_of_union.
        + apply elem_of_singleton in H. discriminate.
        + now apply Ha. }
    split; [now apply add_then_remove|]. split; [|reflexivity].
    rewrite (add_then_remove _ _ Ha). now apply add_then_remove.
  - split; [now intros [? ?]|]. split; [reflexivity|].
    split; [now intros [? ?]|].
    split; [now apply add_then_remove|]. now split.
Qed.

(** The page at rest of a visitor who has not asked for reduced motion. *)
Definition animatedPage : State :=
  {| prefersReducedMotion := false;
     transition := Some ({["overlay"]}, []);
     bodyClasses := {["home"]};
     location := {| href := "https://example.org/"; hostname := "example.org";
                    pathname := "/" |};
     assigned := None;
     timers := [] |}.

Lemma entrance_clears_every_marker_witness :
  let s3 := fireTimer 0 (fireTimer 0 (fireTimer 0
              (init (fun _ => 1 # 2) animatedPage))) in
  bodyClasses s3 = {["home"]} /\ overlayClasses s3 = {["overlay"]} /\
  timers s3 = [].
Proof.
  destruct (entrance_clears_every_marker (fun _ => 1 # 2) animatedPage)
    as (_ & _ & _ & _ & _ & B & O & T);
    [reflexivity|reflexivity|now vm_compute|now vm_compute|now vm_compute|].
  repeat split; assumption.
Defined.

(** ** Which clicks are taken over *)

(** The click is one the listener takes over: within a link to the same
    host, with no [download] attribute, not opening in a new tab, not an
    anchor of the page shown, and with no modifier key held. *)
Definition takenOver (e : Click) (s : State) (link : Link) : Prop :=
  closestLink e = Some link /\
  linkHostname link = hostname (location s) /\
  hasDownload link = false /\
  targetAttr link <> Some "_blank" /\
  ~ (linkHash link <> "" /\ linkPathname link = pathname (location s)) /\
  ctrlKey e = false /\ metaKey e = false /\
  shiftKey e = false /\ altKey e = false.

Lemma onClick_takenOver e s link :
  takenOver e s link -> onClick e s = (navigateTo (linkHref link) s, true).
Proof.
  intros (L & H & D & T & A & C & M & S & Al). unfold onClick.
  rewrite L, H, String.eqb_refl, D. simpl.
  rewrite (bool_decide_eq_false_2 _ T).
  destruct (negb (String.eqb (linkHash link) "") &&
            String.eqb (linkPathname link) (pathname (location s))) eqn:An.
  - exfalso. apply A. apply andb_true_iff in An as [Hh Hp].
    apply negb_true_iff, String.eqb_neq in Hh. apply String.eqb_eq in Hp.
    now split.
  - now rewrite C, M, S, Al.
Qed.

(** X21. The listener never swallows a click: it calls [preventDefault] exactly
    for the clicks it takes over, and then it has called [navigateTo] with
    the address of the link; for every other click (no link, another host,
    a download, a new tab, an anchor of this page, a modifier key) it
    changes nothing and leaves the default to the browser. *)
Theorem click_prevented_exactly_when_navigating (e : Click) (s : State) :
  (snd (onClick e s) = true <-> exists link, takenOver e s link) /\
  (forall link, takenOver e s link ->
     fst (onClick e s) = navigateTo (linkHref link) s) /\
  (snd (onClick e s) = false -> fst (onClick e s) = s).
Proof.
  split; [split|split].
  - unfold onClick, takenOver.
    destruct (closestLink e) as [link|]; [|discriminate].
    destruct (String.eqb_spec (linkHostname link) (hostname (location s)))
      as [Hh|Hh]; simpl; [|discriminate].
    destruct (hasDownload link) eqn:D; [discriminate|].
    destruct (bool_decide (targetAttr link = Some "_blank")) eqn:T;
      [discriminate|].
    apply bool_decide_eq_false in T.
    destruct (String.eqb_spec (linkHash link) ""); simpl.
    + destruct (ctrlKey e), (metaKey e), (shiftKey e), (altKey e);
        try discriminate.
      intros _. exists link. repeat split; try assumption.
      now intros [Hne _].
    + destruct (String.eqb_spec (linkPathname link) (pathname (location s)));
        [discriminate|].
      destruct (ctrlKey e), (metaKey e), (shiftKey e), (altKey e);
        try discriminate.
      intros _. exists link. repeat split; try assumption.
      now intros [_ Hp].
  - intros [link H]. now rewrite (onClick_takenOver e s link H).
  - intros link H. now rewrite (onClick_takenOver e s link H).
  - unfold onClick. destruct (closestLink e) as [link|]; [|reflexivity].
    repeat match goal with
           | |- context [if ?b then (s, false) else _] =>
               destruct b; [reflexivity|]
           end.
    discriminate.
Qed.

(** ** The delayed navigation *)

Lemma lookup_last_added {A} (l : list A) (x : A) :
  (l ++ [x]) !! length l = Some x.
Proof. induction l as [|y l IH]; [reflexivity|exact IH]. Qed.

Lemma delete_last_added {A} (l : list A) (x : A) :
  delete (length l) (l ++ [x]) = l.
Proof.
  induction l as [|y l IH]; [reflexivity|].
  simpl. f_equal. exact IH.
Qed.

(** X22. Without reduced motion [navigateTo] does not leave the page at once:
    it marks the body [is-leaving] and the overlay [glitch-active] and sets
    one timer of 450 milliseconds; when that timer fires the address it was
    called with is assigned, and the timers that were set before are the
    ones still set. The markers are not taken off. *)
Theorem delayed_navigation_reaches_its_address (url : string) (s : State) :
  prefersReducedMotion s = false ->
  let s1 := navigateTo url s in
  let s2 := fireTimer (length (timers s)) s1 in
  assigned s1 = assigned s /\
  timers s1 = timers s ++ [(450, Assign url)] /\
  "is-leaving" ∈ bodyClasses s1 /\
  (is_Some (transition s) -> "glitch-active" ∈ overlayClasses s1) /\
  assigned s2 = Some url /\
  timers s2 = timers s /\
  bodyClasses s2 = bodyClasses s1 /\ overlayClasses s2 = overlayClasses s1.
Proof.
  intros R s1 s2. subst s1 s2. unfold navigateTo. rewrite R.
  unfold fireTimer. simpl. rewrite lookup_last_added. simpl.
  rewrite delete_last_added.
  split; [reflexivity|]. split; [reflexivity|]. split.
  { apply elem_of_union. left. now apply elem_of_singleton. }
  split; [|repeat split].
  intros [[cl ch] E]. unfold overlayClasses. simpl. rewrite E.
  apply elem_of_union. left. now apply elem_of_singleton.
Qed.

Lemma delayed_navigation_reaches_its_address_witness :
  assigned (fireTimer 0 (navigateTo "/work" animatedPage)) = Some "/work".
Proof.
  destruct (delayed_navigation_reaches_its_address "/work" animatedPage
              eq_refl) as (_ & _ & _ & _ & A & _).
  exact A.
Defined.

(** ** The interference lines *)

Definition lineInBounds (l : Line) : Prop :=
  (0 <= lineTop l < 100)%Q /\ (1 <= lineHeight l < 4)%Q /\
  (0 <= lineOpacity l < 1 # 2)%Q.

Lemma glitchLine_inBounds random i :
  (forall k, (0 <= random k < 1)%Q) -> lineInBounds (glitchLine random i).
Proof.
  intros H. unfold lineInBounds, glitchLine.
  cbn [lineTop lineHeight lineOpacity].
  pose proof (H (3 * i)%nat). pose proof (H (3 * i + 1)%nat).
  pose proof (H (3 * i + 2)%nat).
  clear H.
  generalize dependent (random (3 * i)%nat).
  generalize dependent (random (3 * i + 1)%nat).
  generalize dependent (random (3 * i + 2)%nat).
  intros c Hc b Hb a Ha. repeat split; lra.
Qed.

(** X23. With [Math.random] in [0, 1), [createGlitchLines] appends to the
    overlay one container of exactly 20 lines, each with a top between 0
    and 100 percent, a height from 1 to 4 pixels and an opacity between 0
    and one half; it touches no class, sets no timer, and on a page without
    the overlay element it does nothing. *)
Theorem glitch_lines_are_twenty_and_in_bounds
    (random : nat -> Q) (s : State) :
  (forall k, (0 <= random k < 1)%Q) ->
  let s' := createGlitchLines random s in
  bodyClasses s' = bodyClasses s /\
  overlayClasses s' = overlayClasses s /\
  timers s' = timers s /\
  match transition s with
  | None => s' = s
  | Some (cl, ch) =>
      exists lines,
        transition s' = Some (cl, ch ++ [lines]) /\
        length lines = 20%nat /\
        Forall lineInBounds lines
  end.
Proof.
  intros H s'. subst s'. unfold createGlitchLines, overlayClasses. simpl.
  split; [reflexivity|]. split; [now destruct (transition s) as [[cl ch]|]|].
  split; [reflexivity|].
  destruct s as [r [[cl ch]|] bc loc asg tm]; simpl; [|reflexivity].
  eexists. split; [reflexivity|]. split; [reflexivity|].
  repeat (apply List.Forall_cons; [now apply glitchLine_inBounds|]).
  apply List.Forall_nil.
Qed.

Lemma glitch_lines_are_twenty_and_in_bounds_witness :
  exists lines,
    transition (createGlitchLines (fun _ => 1 # 2) animatedPage) =
      Some ({["overlay"]}, [lines]) /\
    length lines = 20%nat /\ Forall lineInBounds lines.
Proof.
  assert (forall k : nat, (0 <= 1 # 2 < 1)%Q) as H
    by (intros _; split; [discriminate|reflexivity]).
  destruct (glitch_lines_are_twenty_and_in_bounds (fun _ => 1 # 2)
              animatedPage H) as (_ & _ & _ & lines & E & Hl).
  exists lines. split; [exact E|exact Hl].
Defined.

End TransitionProps.


